(** * SimpleGC: a shallow embedding of the conservative mark/sweep collector
    of [SimpleGC/gc.cpp] (x86-64, LP64), with its specification.

    Addresses, sizes and machine words are [Z]; a [size_t] or [uint64_t]
    value lies in [0, 2^64) and its wrap-around is written out with
    [wrap64].  Memory is a byte-addressed function.  The allocation table
    ([std::unordered_map<void *, size_t>], the "heap map") is a [gmap Z Z]
    from base address to size. *)

From Stdlib Require Import ZArith Lia List.
From stdpp Require Import base gmap list.
Import ListNotations.

Open Scope Z_scope.

(** ** Machine words and memory *)

Definition word_modulus : Z := 2 ^ 64.

(** Unsigned 64-bit wrap-around ([size_t], [uint64_t]). *)
Definition wrap64 (x : Z) : Z := x mod word_modulus.

(** Byte-addressed memory: the byte (0..255) stored at each address. *)
Definition Mem := Z -> Z.

(** Little-endian load of [n] bytes starting at [a]. *)
Fixpoint load_bytes (m : Mem) (a : Z) (n : nat) : Z :=
  match n with
  | O => 0
  | S n' => m a + 256 * load_bytes m (a + 1) n'
  end.

(** [*p] for a [void **] pointer [p = a]: the 8-byte word stored at [a]. *)
Definition load_word (m : Mem) (a : Z) : Z := load_bytes m a 8.

(** [memset(a, v, n)]. *)
Definition memset (m : Mem) (a v n : Z) : Mem :=
  fun x => if (a <=? x) && (x <? a + n) then v else m x.

(** The allocation table and the mark set share the type [heapmap]. *)
Abbreviation heapmap := (gmap Z Z).

(** ** The conservative scanner ([gc_collect_scan_block]) *)

(** Number of iterations of
    [for (p = start; p < end; p++)] over 8-byte words, with
    [end = (uint64_t)start + length] (wrapping): the words whose address
    [start + 8k] lies below [end]. *)
Definition scan_word_count (start length : Z) : nat :=
  let end_ := wrap64 (start + length) in
  if start <? end_ then Z.to_nat ((end_ - start + 7) / 8) else O.

(** The values [*p] read by that loop, in order. *)
Definition block_words (m : Mem) (start length : Z) : list Z :=
  map (fun k => load_word m (start + 8 * Z.of_nat k))
      (seq 0 (scan_word_count start length)).

(** The body of the loop of [gc_collect_scan_block] over the words [ws] of
    one region: a word that is a key of [allocations] and not yet a key of
    [marked] is inserted into [marked] with its size, and its block is
    scanned by [rec] before the loop goes on. *)
Fixpoint scan_words (rec : Z -> Z -> heapmap -> option heapmap)
    (allocations : heapmap) (ws : list Z) (marked : heapmap) : option heapmap :=
  match ws with
  | [] => Some marked
  | w :: ws' =>
      match allocations !! w with
      | Some sz =>
          match marked !! w with
          | None =>
              match rec w sz (<[w:=sz]> marked) with
              | Some mk => scan_words rec allocations ws' mk
              | None => None
              end
          | Some _ => scan_words rec allocations ws' marked
          end
      | None => scan_words rec allocations ws' marked
      end
  end.

(** [gc_collect_scan_block(start, length, marked)].  The C function is
    plain recursion; [fuel] bounds the recursion depth and [None] means it
    ran out (the termination theorem shows it never does with
    [fuel > size allocations]). *)
Fixpoint gc_collect_scan_block (fuel : nat) (allocations : heapmap) (m : Mem)
    (start length : Z) (marked : heapmap) : option heapmap :=
  match fuel with
  | O => None
  | S fuel' =>
      scan_words (gc_collect_scan_block fuel' allocations m)
        allocations (block_words m start length) marked
  end.

(** A root region given by the words it holds, scanned with recursion
    budget [fuel] for the blocks it reaches. *)
Definition scan_root (fuel : nat) (allocations : heapmap) (m : Mem)
    (ws : list Z) (marked : heapmap) : option heapmap :=
  scan_words (gc_collect_scan_block fuel allocations m) allocations ws marked.

(** ** Collector state *)

(** Calls to the outside world that the collector makes: [calloc(1, size)]
    with the pointer it returned (0 for NULL), [free(addr)], and the entry
    into [gc_collect]. *)
Inductive event : Type :=
| EvCalloc (size result : Z)
| EvFree (addr : Z)
| EvCollect.

(** The process-wide statics of [gc.cpp] after [gc_init] has run, together
    with the memory and the log of calls.  [verbose_logging] only selects
    whether [debug_printf] prints and is left out. *)
Record gc_state : Type := mk_gc_state {
  mem : Mem;
  allocations : heapmap;
  current_allocated : Z;
  max_heap_size : Z;
  overwrite_reclaimed_blocks : bool;
  stack_start : Z;
  stack_length : Z;
  data_segment_start : Z;
  data_segment_length : Z;
  trace : list event
}.

(** What the collector asks of the platform at a given moment: the pointer
    [calloc] returns (0 for NULL; on success the bytes are zeroed), the
    values [get_registers] stores and the value [get_stack_pointer]
    returns.  Each may depend on the whole state, including the log of
    earlier calls, so two calls never have to answer alike. *)
Record platform : Type := mk_platform {
  plat_calloc : gc_state -> Z -> Z;
  plat_registers : gc_state -> list Z;
  plat_stack_pointer : gc_state -> Z
}.

(** The register buffer of [gc_collect]: [calloc(sizeof(void * ), 15)]
    zeroes 15 slots and [get_registers] fills slots 0 to 13. *)
Definition reg_buffer (regs : list Z) : list Z :=
  take 14 (regs ++ replicate 14 0) ++ [0].

(** Length of the in-use stack extent,
    [(size_t)((int64_t)stack_start + stack_length - curr_stack)]. *)
Definition stack_scan_length (s : gc_state) (sp : Z) : Z :=
  wrap64 (stack_start s + stack_length s - sp).

(** The words of the three root regions, in scanning order. *)
Definition root_words (s : gc_state) (regs : list Z) (sp : Z) : list Z :=
  reg_buffer regs
  ++ block_words (mem s) sp (stack_scan_length s sp)
  ++ block_words (mem s) (data_segment_start s) (data_segment_length s).

(** The mark phase of [gc_collect]: registers, in-use stack, data segment,
    each scanned into the same fresh [marked] map. *)
Definition gc_mark (s : gc_state) (regs : list Z) (sp : Z) : option heapmap :=
  let alloc := allocations s in
  let m := mem s in
  let fuel := size alloc in
  match scan_root fuel alloc m (reg_buffer regs) ∅ with
  | None => None
  | Some mk1 =>
      match scan_root fuel alloc m (block_words m sp (stack_scan_length s sp)) mk1 with
      | None => None
      | Some mk2 =>
          scan_root fuel alloc m
            (block_words m (data_segment_start s) (data_segment_length s)) mk2
      end
  end.

(** One iteration of the sweep loop over [*allocations]: an entry absent
    from [marked] is overwritten with [0xab] when the flag is set, freed,
    and its size added to [total_swept]. *)
Definition sweep_step (overwrite : bool) (marked : heapmap)
    (acc : Mem * list event * Z) (entry : Z * Z) : Mem * list event * Z :=
  let '(m, tr, total_swept) := acc in
  let '(a, n) := entry in
  match marked !! a with
  | None =>
      ((if overwrite then memset m a 171 n else m), tr ++ [EvFree a],
       wrap64 (total_swept + n))
  | Some _ => acc
  end.

(** The sweep over the table in its iteration order. *)
Definition sweep (overwrite : bool) (marked : heapmap) (alloc : heapmap)
    (m : Mem) (tr : list event) : Mem * list event * Z :=
  fold_left (sweep_step overwrite marked) (map_to_list alloc) (m, tr, 0).

(** Whether an entry of the table is absent from the mark set. *)
Definition unmarked (marked : heapmap) (e : Z * Z) : bool :=
  match marked !! e.1 with None => true | Some _ => false end.

(** The entries the sweep reclaims, in iteration order. *)
Definition swept_entries (marked alloc : heapmap) : list (Z * Z) :=
  List.filter (unmarked marked) (map_to_list alloc).

(** Sum of the sizes of a list of entries. *)
Fixpoint sum_sizes (l : list (Z * Z)) : Z :=
  match l with
  | [] => 0
  | (_, n) :: l' => n + sum_sizes l'
  end.

(** Whether [x] lies in a block of [l] absent from [marked]. *)
Definition in_swept_block (marked : heapmap) (l : list (Z * Z)) (x : Z) : bool :=
  existsb (fun e => unmarked marked e && (e.1 <=? x) && (x <? e.1 + e.2)) l.

Section Collector.

Variable P : platform.

(** [gc_collect()]: mark, sweep, [current_allocated -= total_swept], and
    the table replaced by [marked].  The [None] branch is never taken
    (see [gc_mark_terminates]).  The register buffer's [calloc] and [free]
    and the stores into the statics [current_allocated] and [allocations]
    are not written to [mem] or logged in the trace. *)
Definition gc_collect (s : gc_state) : gc_state :=
  let regs := plat_registers P s in
  let sp := plat_stack_pointer P s in
  match gc_mark s regs sp with
  | Some marked =>
      let '(m', tr', total_swept) :=
        sweep (overwrite_reclaimed_blocks s) marked (allocations s) (mem s)
          (trace s ++ [EvCollect]) in
      mk_gc_state m' marked (wrap64 (current_allocated s - total_swept))
        (max_heap_size s) (overwrite_reclaimed_blocks s)
        (stack_start s) (stack_length s)
        (data_segment_start s) (data_segment_length s) tr'
  | None => s
  end.

(** [internal_alloc(size)]: the cap check, then [calloc(1, size)]. *)
Definition internal_alloc (s : gc_state) (size : Z) : Z * gc_state :=
  if (0 <? max_heap_size s)
     && (max_heap_size s <? wrap64 (current_allocated s + size))
  then (0, s)
  else
    let p := plat_calloc P s size in
    (p, mk_gc_state (if p =? 0 then mem s else memset (mem s) p 0 size)
          (allocations s) (current_allocated s) (max_heap_size s)
          (overwrite_reclaimed_blocks s) (stack_start s) (stack_length s)
          (data_segment_start s) (data_segment_length s)
          (trace s ++ [EvCalloc size p])).

(** [gc_alloc(size)]: one attempt, on failure one collection and one
    retry; a non-null result is recorded in the table and the total. *)
Definition gc_alloc (s : gc_state) (size : Z) : Z * gc_state :=
  let '(p1, s1) := internal_alloc s size in
  let '(p, s2) := if p1 =? 0 then internal_alloc (gc_collect s1) size
                  else (p1, s1) in
  if p =? 0 then (0, s2)
  else (p, mk_gc_state (mem s2) (<[p:=size]> (allocations s2))
             (wrap64 (current_allocated s2 + size)) (max_heap_size s2)
             (overwrite_reclaimed_blocks s2) (stack_start s2) (stack_length s2)
             (data_segment_start s2) (data_segment_length s2) (trace s2)).

End Collector.

(** [gc_debug_set_max_heap(size)]. *)
Definition gc_debug_set_max_heap (s : gc_state) (size : Z) : gc_state :=
  mk_gc_state (mem s) (allocations s) (current_allocated s) size
    (overwrite_reclaimed_blocks s) (stack_start s) (stack_length s)
    (data_segment_start s) (data_segment_length s) (trace s).

(** ** One-time initialisation ([gc_init]) *)

(** Outcome of [gc_init]: nothing to do (already initialised), [exit(code)],
    undefined behaviour (a null pointer dereferenced), or the root bounds
    it stores. *)
Inductive init_result : Type :=
| InitAlreadyDone
| InitExit (code : Z)
| InitUndefined
| InitDone (stack_start stack_length data_segment_start data_segment_length : Z).

(** [gc_init()] given the answers of the platform: [kr], [address_info] and
    [size_info] of [mach_vm_region], the segment [getsegbyname("__DATA")]
    points to ([None] for a null pointer) as [(vmaddr, vmsize)], and
    [_dyld_get_image_vmaddr_slide(0)]. *)
Definition gc_init (gc_initialized : bool) (kr address_info size_info : Z)
    (dataSeg : option (Z * Z)) (slide : Z) : init_result :=
  if gc_initialized then InitAlreadyDone
  else if negb (kr =? 0) then InitExit 1
  else
    match dataSeg with
    | None => InitUndefined
    | Some (vmaddr, vmsize) =>
        InitDone address_info size_info (wrap64 (vmaddr + slide)) vmsize
    end.

(** ** Concrete memories for examples *)

(** Byte [i] (little-endian) of the word [v]. *)
Definition word_byte (v : Z) (i : Z) : Z := Z.land (Z.shiftr v (8 * i)) 255.

(** A memory holding the given words at the given addresses, zero elsewhere. *)
Fixpoint mem_of_words (ws : list (Z * Z)) : Mem :=
  match ws with
  | [] => fun _ => 0
  | (a, v) :: ws' =>
      fun x => if (a <=? x) && (x <? a + 8) then word_byte v (x - a)
               else mem_of_words ws' x
  end.

(** ** Reachability *)

(** The blocks of the table reachable from the words [roots] under the
    scanner's rule: a word counts when it equals a base address of the
    table, and the words of a reached block are those the scan loop reads. *)
Inductive reachable (alloc : heapmap) (m : Mem) (roots : list Z) : Z -> Prop :=
| reach_root a sz :
    In a roots -> alloc !! a = Some sz -> reachable alloc m roots a
| reach_step a sz b szb :
    reachable alloc m roots a -> alloc !! a = Some sz ->
    In b (block_words m a sz) -> alloc !! b = Some szb ->
    reachable alloc m roots b.

(** Every table word of the block at [k] is a key of [mk]. *)
Definition closed (alloc : heapmap) (m : Mem) (mk : heapmap) (k : Z) : Prop :=
  forall sz, alloc !! k = Some sz ->
  forall x szx, In x (block_words m k sz) -> alloc !! x = Some szx ->
  is_Some (mk !! x).

(** ** Allocator assumptions, operations and invariants *)

(** The blocks of a table occupy pairwise disjoint byte ranges, as the
    blocks handed out by [calloc] do. *)
Definition blocks_disjoint (alloc : heapmap) : Prop :=
  forall a n b k, alloc !! a = Some n -> alloc !! b = Some k -> a <> b ->
  a + n <= b \/ b + k <= a.

(** Bytes held by the blocks of a table. *)
Definition heap_total (alloc : heapmap) : Z := sum_sizes (map_to_list alloc).

(** What a real [calloc] guarantees about a non-null result: the address
    is not the base of a live block, and the live blocks together with the
    new one fit in the 64-bit address space. *)
Definition calloc_sane (P : platform) : Prop :=
  forall s size, 0 <= size < word_modulus -> plat_calloc P s size <> 0 ->
  allocations s !! plat_calloc P s size = None /\
  heap_total (allocations s) + size < word_modulus.

(** Public operations a program performs. *)
Inductive gc_op : Type :=
| OpAlloc (size : Z)
| OpCollect.

Fixpoint run_ops (P : platform) (ops : list gc_op) (s : gc_state) : gc_state :=
  match ops with
  | [] => s
  | OpAlloc size :: ops' => run_ops P ops' (gc_alloc P s size).2
  | OpCollect :: ops' => run_ops P ops' (gc_collect P s)
  end.

(** Every request size is a [size_t]. *)
Definition ops_valid (ops : list gc_op) : Prop :=
  Forall (fun o => match o with
                   | OpAlloc size => 0 <= size < word_modulus
                   | OpCollect => True
                   end) ops.

(** The bookkeeping invariant under a cap: the running total is the sum of
    the table's sizes, fits in a word, and stays within the cap. *)
Definition gc_inv (cap : Z) (s : gc_state) : Prop :=
  0 < cap /\ max_heap_size s = cap /\
  current_allocated s = heap_total (allocations s) /\
  heap_total (allocations s) < word_modulus /\
  current_allocated s <= cap /\
  (forall k n, allocations s !! k = Some n -> 0 <= n).

(** ** A concrete heap for examples *)

(** Three blocks: [A] at 4096 (16 bytes) whose first word points to [B] at
    8192 (8 bytes), and [C] at 12288 (24 bytes) that nothing points to.
    The data segment [100, 116) holds the address of [A]; the in-use
    stack is empty.  The cap is 64 bytes and reclaimed blocks are
    overwritten. *)
Definition ex_mem : Mem := mem_of_words [(4096, 8192); (100, 4096); (200, 77)].

Definition ex_allocations : heapmap :=
  <[4096:=16]> (<[8192:=8]> (<[12288:=24]> ∅)).

Definition ex_state : gc_state :=
  mk_gc_state ex_mem ex_allocations 48 64 true 1000 1000 100 16 [].

(** An allocator that hands out the block at 20480 when it is free, the
    request is at most 4096 bytes and the heap fits in the address space. *)
Definition ex_calloc (s : gc_state) (size : Z) : Z :=
  match allocations s !! 20480 with
  | None => if (size <=? 4096)
               && (heap_total (allocations s) + size <? word_modulus)
            then 20480 else 0
  | Some _ => 0
  end.

Definition ex_platform : platform :=
  mk_platform ex_calloc (fun _ => [1; 2; 3]) (fun _ => 2000).

(** A table check: pairwise disjoint byte ranges. *)
Definition blocks_disjointb (alloc : heapmap) : bool :=
  let l := map_to_list alloc in
  forallb (fun e1 => forallb (fun e2 =>
    (e1.1 =? e2.1) || (e1.1 + e1.2 <=? e2.1) || (e2.1 + e2.2 <=? e1.1)) l) l.

(** A table check: no negative size. *)
Definition sizes_nonnegb (alloc : heapmap) : bool :=
  forallb (fun e => 0 <=? e.2) (map_to_list alloc).

(** An allocator like [ex_calloc] on a platform whose register snapshot
    holds the address 20480 that allocator hands out. *)
Definition ex_platform_regs : platform :=
  mk_platform ex_calloc (fun _ => [20480]) (fun _ => 2000).

(** A table check: no key [b] other than [a] has a scanned word equal to [a]. *)
Definition unreferenced_inb (m : Mem) (alloc : heapmap) (a : Z) : bool :=
  forallb (fun e => (e.1 =? a) || negb (existsb (Z.eqb a) (block_words m e.1 e.2)))
    (map_to_list alloc).

(** ** The test driver ([SimpleGC/main.cpp]) *)

(** [SCRAMBLE(p)] and [UNSCRAMBLE(p)]: the pointer moved one byte up or
    down through [uint64_t], which hides it from the scanner. *)
Definition SCRAMBLE (p : Z) : Z := wrap64 (p + 1).

Definition UNSCRAMBLE (p : Z) : Z := wrap64 (p - 1).

(** [clearStack()]: [memset(alloca(1024), 0, 1024)], the area given by its
    start [a]. *)
Definition clearStack (m : Mem) (a : Z) : Mem := memset m a 0 1024.

(** * Properties *)

(** ** Termination of the mark traversal *)

Section ScanTermination.

Variable alloc : heapmap.

(** Loop lemma: if every recursive scan entered from a map [mk0] with at
    most [f] unmarked entries returns, so does the loop. *)
Lemma scan_words_total (rec : Z -> Z -> heapmap -> option heapmap) (f : nat) :
  (forall w sz mk0, alloc !! w = Some sz -> mk0 ⊆ alloc -> mk0 !! w = None ->
     (size alloc - size mk0 <= f)%nat ->
     exists mk', rec w sz (<[w:=sz]> mk0) = Some mk' /\
                 <[w:=sz]> mk0 ⊆ mk' /\ mk' ⊆ alloc) ->
  forall ws mk, mk ⊆ alloc -> (size alloc - size mk <= f)%nat ->
  exists mk', scan_words rec alloc ws mk = Some mk' /\ mk ⊆ mk' /\ mk' ⊆ alloc.
Proof.
  intros Hrec ws. induction ws as [|w ws IH]; intros mk Hsub Hsz; simpl.
  - exists mk. split; [reflexivity | split; [reflexivity | exact Hsub]].
  - destruct (alloc !! w) as [sz|] eqn:Ha.
    + destruct (mk !! w) as [x|] eqn:Hm.
      * exact (IH mk Hsub Hsz).
      * destruct (Hrec w sz mk Ha Hsub Hm Hsz) as (mk1 & Hr & Hle1 & Hsub1).
        rewrite Hr.
        assert (Hmk1 : mk ⊆ mk1) by
          (etransitivity; [apply insert_subseteq; exact Hm | exact Hle1]).
        assert (size mk <= size mk1)%nat by (apply map_subseteq_size; exact Hmk1).
        destruct (IH mk1 Hsub1 ltac:(lia)) as (mk2 & Hr2 & Hle2 & Hsub2).
        exists mk2. split; [exact Hr2 | split; [etransitivity; eauto | exact Hsub2]].
    + exact (IH mk Hsub Hsz).
Qed.

(** With a budget above the number of unmarked entries the scan of a
    block returns, and it only adds entries of the table. *)
Lemma scan_block_total (fuel : nat) :
  forall m start length mk, mk ⊆ alloc -> (size alloc - size mk < fuel)%nat ->
  exists mk', gc_collect_scan_block fuel alloc m start length mk = Some mk'
              /\ mk ⊆ mk' /\ mk' ⊆ alloc.
Proof.
  induction fuel as [|f IH]; intros m start length mk Hsub Hsz; [lia|].
  simpl. apply (scan_words_total _ f); [|exact Hsub|lia].
  intros w sz mk0 Ha Hsub0 Hm0 Hsz0.
  assert (Hins : <[w:=sz]> mk0 ⊆ alloc) by (apply insert_subseteq_l; assumption).
  pose proof (map_subseteq_size _ _ Hins) as Hs.
  rewrite map_size_insert_None in Hs by exact Hm0.
  destruct (IH m w sz (<[w:=sz]> mk0) Hins) as (mk' & Hr & Hle & Hsub');
    [rewrite map_size_insert_None by exact Hm0; lia|].
  exists mk'. auto.
Qed.

Lemma scan_root_total (m : Mem) (ws : list Z) (mk : heapmap) :
  mk ⊆ alloc ->
  exists mk', scan_root (size alloc) alloc m ws mk = Some mk'
              /\ mk ⊆ mk' /\ mk' ⊆ alloc.
Proof.
  intros Hsub. unfold scan_root.
  apply (scan_words_total _ (size alloc)); [|exact Hsub|lia].
  intros w sz mk0 Ha Hsub0 Hm0 _.
  assert (Hins : <[w:=sz]> mk0 ⊆ alloc) by (apply insert_subseteq_l; assumption).
  pose proof (map_subseteq_size _ _ Hins) as Hs.
  rewrite map_size_insert_None in Hs by exact Hm0.
  apply scan_block_total; [exact Hins|].
  rewrite map_size_insert_None by exact Hm0. lia.
Qed.

End ScanTermination.

(** A run that returns with some budget returns the same result with any
    larger budget: the budget never changes what the scan computes. *)
Lemma scan_words_rec_ext (rec1 rec2 : Z -> Z -> heapmap -> option heapmap)
    alloc ws mk r :
  (forall w sz mk0 r0, rec1 w sz mk0 = Some r0 -> rec2 w sz mk0 = Some r0) ->
  scan_words rec1 alloc ws mk = Some r -> scan_words rec2 alloc ws mk = Some r.
Proof.
  intros Hext. revert mk. induction ws as [|w ws IH]; intros mk; simpl; [tauto|].
  destruct (alloc !! w) as [sz|]; [|apply IH].
  destruct (mk !! w); [apply IH|].
  destruct (rec1 w sz (<[w:=sz]> mk)) as [r1|] eqn:E1; [|discriminate].
  rewrite (Hext _ _ _ _ E1). apply IH.
Qed.

Lemma scan_block_fuel_mono (fuel : nat) :
  forall fuel' alloc m start length mk r, (fuel <= fuel')%nat ->
  gc_collect_scan_block fuel alloc m start length mk = Some r ->
  gc_collect_scan_block fuel' alloc m start length mk = Some r.
Proof.
  induction fuel as [|f IH]; intros fuel' alloc m start length mk r Hle H;
    [discriminate|].
  destruct fuel' as [|f']; [lia|]. simpl in *.
  eapply scan_words_rec_ext; [|exact H].
  intros. apply (IH f'); [lia|assumption].
Qed.

(** ** Reachability and the mark set *)

Lemma closed_mono alloc m mk1 mk2 k :
  mk1 ⊆ mk2 -> closed alloc m mk1 k -> closed alloc m mk2 k.
Proof.
  intros Hle Hc sz Ha x szx Hin Hx.
  destruct (Hc sz Ha x szx Hin Hx) as [y Hy].
  exists y. eapply lookup_weaken; eauto.
Qed.

Section ScanSpec.

Variables (alloc : heapmap) (m : Mem).

(** What one scan of the words [ws] from [mk] to [mk'] guarantees: it only
    adds, every table word of [ws] is marked, and every newly marked block
    has all its table words marked. *)
Definition scan_post (ws : list Z) (mk mk' : heapmap) : Prop :=
  mk ⊆ mk' /\
  (forall x szx, In x ws -> alloc !! x = Some szx -> is_Some (mk' !! x)) /\
  (forall k, is_Some (mk' !! k) -> mk !! k = None -> closed alloc m mk' k).

Lemma scan_words_complete (rec : Z -> Z -> heapmap -> option heapmap) :
  (forall w sz mk0 r, alloc !! w = Some sz -> rec w sz mk0 = Some r ->
     scan_post (block_words m w sz) mk0 r) ->
  forall ws mk mk', scan_words rec alloc ws mk = Some mk' -> scan_post ws mk mk'.
Proof.
  intros Hrec ws. induction ws as [|w ws IH]; intros mk mk' H; simpl in H.
  - injection H as <-. split; [reflexivity|split].
    + intros x szx [].
    + intros k [y Hy] Hn. congruence.
  - destruct (alloc !! w) as [sz|] eqn:Ha.
    + destruct (mk !! w) as [y|] eqn:Hm.
      * destruct (IH _ _ H) as (Hle & Hw & Hc). split; [exact Hle|split; [|exact Hc]].
        intros x szx [<-|Hin] Hx; [|eauto].
        exists y. eapply lookup_weaken; eauto.
      * destruct (rec w sz (<[w:=sz]> mk)) as [r|] eqn:Hr; [|discriminate].
        destruct (Hrec _ _ _ _ Ha Hr) as (Hle1 & Hw1 & Hc1).
        destruct (IH _ _ H) as (Hle2 & Hw2 & Hc2).
        assert (Hmr : mk ⊆ r) by
          (etransitivity; [apply insert_subseteq; exact Hm | exact Hle1]).
        split; [etransitivity; eauto|split].
        -- intros x szx [<-|Hin] Hx; [|eauto].
           exists sz. eapply lookup_weaken; [|exact Hle2].
           eapply lookup_weaken; [apply lookup_insert_eq|exact Hle1].
        -- intros k Hk Hn. destruct (r !! k) as [z|] eqn:Hrk.
           ++ apply (closed_mono _ _ r); [exact Hle2|].
              destruct (decide (k = w)) as [->|Hne].
              ** intros sz' Ha' x szx Hin Hx. rewrite Ha in Ha'. injection Ha' as <-.
                 eapply Hw1; eauto.
              ** apply Hc1; [eauto|]. rewrite lookup_insert_ne by congruence. exact Hn.
           ++ apply Hc2; assumption.
    + destruct (IH _ _ H) as (Hle & Hw & Hc). split; [exact Hle|split; [|exact Hc]].
      intros x szx [<-|Hin] Hx; [congruence|eauto].
Qed.

Lemma scan_block_complete (fuel : nat) :
  forall start length mk r,
  gc_collect_scan_block fuel alloc m start length mk = Some r ->
  scan_post (block_words m start length) mk r.
Proof.
  induction fuel as [|f IH]; intros start length mk r H; [discriminate|].
  simpl in H. eapply scan_words_complete; [|exact H].
  intros w sz mk0 r0 _ Hr. apply IH. exact Hr.
Qed.

Lemma scan_root_complete (fuel : nat) ws mk r :
  scan_root fuel alloc m ws mk = Some r -> scan_post ws mk r.
Proof.
  unfold scan_root. apply scan_words_complete.
  intros w sz mk0 r0 _ Hr. apply (scan_block_complete fuel). exact Hr.
Qed.

(** Soundness: only blocks satisfying [R] are marked, when [R] holds of
    every table word of the scanned region and is closed under the
    scanner's step. *)
Variable R : Z -> Prop.
Hypothesis R_step : forall a sz b szb, R a -> alloc !! a = Some sz ->
  In b (block_words m a sz) -> alloc !! b = Some szb -> R b.

Lemma scan_words_sound (rec : Z -> Z -> heapmap -> option heapmap) :
  (forall w sz mk0 r, alloc !! w = Some sz -> R w ->
     (forall k, is_Some (mk0 !! k) -> R k) -> rec w sz mk0 = Some r ->
     forall k, is_Some (r !! k) -> R k) ->
  forall ws mk mk',
  (forall x szx, In x ws -> alloc !! x = Some szx -> R x) ->
  (forall k, is_Some (mk !! k) -> R k) ->
  scan_words rec alloc ws mk = Some mk' -> forall k, is_Some (mk' !! k) -> R k.
Proof.
  intros Hrec ws. induction ws as [|w ws IH]; intros mk mk' Hws Hmk H; simpl in H.
  - injection H as <-. exact Hmk.
  - assert (Hws' : forall x szx, In x ws -> alloc !! x = Some szx -> R x)
      by (intros; eapply Hws; [right|]; eauto).
    destruct (alloc !! w) as [sz|] eqn:Ha; [|eapply IH; eauto].
    destruct (mk !! w) as [y|]; [eapply IH; eauto|].
    destruct (rec w sz (<[w:=sz]> mk)) as [r|] eqn:Hr; [|discriminate].
    assert (Rw : R w) by (eapply Hws; [left; reflexivity|exact Ha]).
    eapply IH; [exact Hws'| |exact H].
    eapply Hrec; [exact Ha|exact Rw| |exact Hr].
    intros k Hk. destruct (decide (k = w)) as [->|Hne]; [exact Rw|].
    apply Hmk. rewrite lookup_insert_ne in Hk by congruence. exact Hk.
Qed.

Lemma scan_block_sound (fuel : nat) :
  forall start length mk r,
  (forall x szx, In x (block_words m start length) -> alloc !! x = Some szx -> R x) ->
  (forall k, is_Some (mk !! k) -> R k) ->
  gc_collect_scan_block fuel alloc m start length mk = Some r ->
  forall k, is_Some (r !! k) -> R k.
Proof.
  induction fuel as [|f IH]; intros start length mk r Hws Hmk H; [discriminate|].
  simpl in H. eapply scan_words_sound; [|exact Hws|exact Hmk|exact H].
  intros w sz mk0 r0 Ha Rw Hmk0 Hr. eapply IH; [|exact Hmk0|exact Hr].
  intros. eapply R_step; eauto.
Qed.

Lemma scan_root_sound (fuel : nat) ws mk r :
  (forall x szx, In x ws -> alloc !! x = Some szx -> R x) ->
  (forall k, is_Some (mk !! k) -> R k) ->
  scan_root fuel alloc m ws mk = Some r -> forall k, is_Some (r !! k) -> R k.
Proof.
  unfold scan_root. apply scan_words_sound.
  intros w sz mk0 r0 Ha Rw Hmk0 Hr. eapply (scan_block_sound fuel); [|exact Hmk0|exact Hr].
  intros. eapply R_step; eauto.
Qed.

End ScanSpec.

(** The mark phase returns a sub-table of the allocation table whose keys
    are exactly the reachable blocks. *)
Lemma gc_mark_spec (s : gc_state) (regs : list Z) (sp : Z) :
  exists marked, gc_mark s regs sp = Some marked /\ marked ⊆ allocations s /\
  (forall a, is_Some (marked !! a) <->
             reachable (allocations s) (mem s) (root_words s regs sp) a).
Proof.
  set (alloc := allocations s). set (m := mem s).
  set (ws1 := reg_buffer regs).
  set (ws2 := block_words m sp (stack_scan_length s sp)).
  set (ws3 := block_words m (data_segment_start s) (data_segment_length s)).
  assert (Hroots : root_words s regs sp = ws1 ++ ws2 ++ ws3) by reflexivity.
  destruct (scan_root_total alloc m ws1 ∅ ltac:(apply map_empty_subseteq))
    as (mk1 & H1 & _ & Hs1).
  destruct (scan_root_total alloc m ws2 mk1 Hs1) as (mk2 & H2 & _ & Hs2).
  destruct (scan_root_total alloc m ws3 mk2 Hs2) as (mk3 & H3 & _ & Hs3).
  exists mk3. unfold gc_mark. fold alloc m. fold ws1 ws2 ws3.
  rewrite H1, H2, H3. split; [reflexivity|split; [exact Hs3|]].
  rewrite Hroots. set (roots := ws1 ++ ws2 ++ ws3).
  destruct (scan_root_complete alloc m _ _ _ _ H1) as (Hl1 & Hw1 & Hc1).
  destruct (scan_root_complete alloc m _ _ _ _ H2) as (Hl2 & Hw2 & Hc2).
  destruct (scan_root_complete alloc m _ _ _ _ H3) as (Hl3 & Hw3 & Hc3).
  assert (Hcl : forall k, is_Some (mk3 !! k) -> closed alloc m mk3 k).
  { intros k Hk. destruct (mk2 !! k) as [z2|] eqn:E2; [|apply Hc3; assumption].
    destruct (mk1 !! k) as [z1|] eqn:E1.
    - apply (closed_mono _ _ mk1); [etransitivity; eauto|].
      apply Hc1; [eauto|apply lookup_empty].
    - apply (closed_mono _ _ mk2); [exact Hl3|]. apply Hc2; [eauto|exact E1]. }
  intros a. split.
  - intros Ha. eapply (scan_root_sound alloc m (reachable alloc m roots));
      [| | |exact H3|exact Ha].
    + intros; eapply reach_step; eauto.
    + intros x szx Hin Hx. eapply reach_root; [|exact Hx].
      unfold roots. rewrite !in_app_iff. tauto.
    + eapply (scan_root_sound alloc m (reachable alloc m roots)); [| | |exact H2].
      * intros; eapply reach_step; eauto.
      * intros x szx Hin Hx. eapply reach_root; [|exact Hx].
        unfold roots. rewrite !in_app_iff. tauto.
      * eapply (scan_root_sound alloc m (reachable alloc m roots)); [| | |exact H1].
        -- intros; eapply reach_step; eauto.
        -- intros x szx Hin Hx. eapply reach_root; [|exact Hx].
           unfold roots. rewrite !in_app_iff. tauto.
        -- intros k [y Hy]. rewrite lookup_empty in Hy. discriminate.
  - induction 1 as [a sz Hin Ha|a sz b szb Hra IH Ha Hin Hb].
    + unfold roots in Hin. rewrite !in_app_iff in Hin.
      destruct Hin as [Hin|[Hin|Hin]].
      * destruct (Hw1 a sz Hin Ha) as [y Hy]. exists y.
        eapply lookup_weaken; [exact Hy|etransitivity; eauto].
      * destruct (Hw2 a sz Hin Ha) as [y Hy]. exists y.
        eapply lookup_weaken; [exact Hy|exact Hl3].
      * exact (Hw3 a sz Hin Ha).
    + exact (Hcl a IH sz Ha b szb Hin Hb).
Qed.

(** ** Claims about the mark phase *)

(** C1: after the mark phase of a collection (register buffer, in-use
    stack, data segment, in that order, into one fresh map) the mark set
    holds exactly the entries [(a, size)] of the allocation table whose
    block is reachable from the words of those three regions, a word being
    followed iff it is a key of the table and a marked block's words being
    scanned with the same rule. *)
Theorem gc_mark_marks_exactly_reachable (s : gc_state) (regs : list Z) (sp : Z) :
  exists marked, gc_mark s regs sp = Some marked /\
  forall a sz, marked !! a = Some sz <->
    allocations s !! a = Some sz /\
    reachable (allocations s) (mem s) (root_words s regs sp) a.
Proof.
  destruct (gc_mark_spec s regs sp) as (marked & Hm & Hsub & Hiff).
  exists marked. split; [exact Hm|]. intros a sz. split.
  - intros Ha. split; [eapply lookup_weaken; eauto|]. apply Hiff. eauto.
  - intros [Ha Hr]. apply Hiff in Hr as [y Hy].
    pose proof (lookup_weaken _ _ _ _ Hy Hsub) as Hy'. congruence.
Qed.

(** C8: the recursive mark traversal terminates for every allocation table
    and every contents of the root regions: it never needs a recursion
    depth beyond the number of table entries, since a block is entered only
    when it is newly added to the mark set. *)
Theorem gc_mark_terminates (s : gc_state) (regs : list Z) (sp : Z) :
  exists marked, gc_mark s regs sp = Some marked /\ marked ⊆ allocations s.
Proof.
  unfold gc_mark.
  destruct (scan_root_total (allocations s) (mem s) (reg_buffer regs) ∅
              ltac:(apply map_empty_subseteq)) as (mk1 & H1 & _ & Hs1).
  rewrite H1.
  destruct (scan_root_total (allocations s) (mem s)
              (block_words (mem s) sp (stack_scan_length s sp)) mk1 Hs1)
    as (mk2 & H2 & _ & Hs2).
  rewrite H2.
  destruct (scan_root_total (allocations s) (mem s)
              (block_words (mem s) (data_segment_start s) (data_segment_length s))
              mk2 Hs2) as (mk3 & H3 & _ & Hs3).
  exists mk3. auto.
Qed.

(** ** The sweep *)

Lemma wrap64_idemp (x : Z) : wrap64 (wrap64 x) = wrap64 x.
Proof. unfold wrap64. apply Zmod_mod. Qed.

Lemma wrap64_add_l (x y : Z) : wrap64 (wrap64 x + y) = wrap64 (x + y).
Proof. unfold wrap64. rewrite Zplus_mod_idemp_l. reflexivity. Qed.

Lemma wrap64_sub_r (x y : Z) : wrap64 (x - wrap64 y) = wrap64 (x - y).
Proof. unfold wrap64. rewrite Zminus_mod_idemp_r. reflexivity. Qed.

(** The sweep loop over any list of entries: it frees the unmarked ones in
    order, sums their sizes modulo [2^64], and overwrites exactly the
    bytes of unmarked blocks when the flag is set. *)
Lemma sweep_fold_spec (ov : bool) (marked : heapmap) (l : list (Z * Z)) :
  forall m tr t, wrap64 t = t ->
  let '(m', tr', t') := fold_left (sweep_step ov marked) l (m, tr, t) in
  tr' = tr ++ map (fun e => EvFree e.1) (List.filter (unmarked marked) l) /\
  t' = wrap64 (t + sum_sizes (List.filter (unmarked marked) l)) /\
  forall x, m' x = if ov && in_swept_block marked l x then 171 else m x.
Proof.
  induction l as [|[a n] l IH]; intros m tr t Ht; simpl.
  - rewrite app_nil_r, Z.add_0_r, Ht. split; [reflexivity|split; [reflexivity|]].
    intros x. destruct ov; reflexivity.
  - assert (Hsw : forall x, in_swept_block marked ((a, n) :: l) x =
              unmarked marked (a, n) && (a <=? x) && (x <? a + n)
              || in_swept_block marked l x) by reflexivity.
    destruct (marked !! a) as [y|] eqn:Hm;
      [assert (Hu : unmarked marked (a, n) = false)
         by (unfold unmarked; simpl; rewrite Hm; reflexivity)
      |assert (Hu : unmarked marked (a, n) = true)
         by (unfold unmarked; simpl; rewrite Hm; reflexivity)];
      rewrite Hu in Hsw; rewrite Hu.
    + specialize (IH m tr t Ht).
      destruct (fold_left (sweep_step ov marked) l (m, tr, t)) as [[m' tr'] t'].
      destruct IH as (H1 & H2 & H3). split; [exact H1|split; [exact H2|]].
      intros x. rewrite H3. reflexivity.
    + specialize (IH (if ov then memset m a 171 n else m) (tr ++ [EvFree a])
                     (wrap64 (t + n)) ltac:(apply wrap64_idemp)).
      destruct (fold_left (sweep_step ov marked) l _) as [[m' tr'] t'].
      destruct IH as (H1 & H2 & H3). split; [|split].
      * rewrite H1, <- app_assoc. reflexivity.
      * rewrite H2, wrap64_add_l. simpl. f_equal. lia.
      * intros x. rewrite H3. destruct ov; simpl; [|reflexivity].
        unfold memset. destruct ((a <=? x) && (x <? a + n)); simpl;
          destruct (in_swept_block marked l x); reflexivity.
Qed.

Lemma in_swept_block_true (marked : heapmap) (l : list (Z * Z)) a n x :
  In (a, n) l -> marked !! a = None -> a <= x < a + n ->
  in_swept_block marked l x = true.
Proof.
  intros Hin Hm Hx. unfold in_swept_block. apply existsb_exists.
  exists (a, n). split; [exact Hin|]. unfold unmarked. simpl. rewrite Hm.
  simpl. apply andb_true_intro. split; [apply Z.leb_le|apply Z.ltb_lt]; lia.
Qed.

(** [gc_collect] as mark followed by the sweep of the table. *)
Lemma gc_collect_unfold (P : platform) (s : gc_state) (marked : heapmap) :
  gc_mark s (plat_registers P s) (plat_stack_pointer P s) = Some marked ->
  let '(m', tr', total_swept) :=
    sweep (overwrite_reclaimed_blocks s) marked (allocations s) (mem s)
      (trace s ++ [EvCollect]) in
  gc_collect P s =
  mk_gc_state m' marked (wrap64 (current_allocated s - total_swept))
    (max_heap_size s) (overwrite_reclaimed_blocks s)
    (stack_start s) (stack_length s)
    (data_segment_start s) (data_segment_length s) tr'.
Proof.
  intros Hm. unfold gc_collect. rewrite Hm.
  destruct (sweep _ _ _ _ _) as [[m' tr'] t']. reflexivity.
Qed.

(** The effect of one collection, given its mark set. *)
Lemma gc_collect_sweep_spec (P : platform) (s : gc_state) (marked : heapmap) :
  gc_mark s (plat_registers P s) (plat_stack_pointer P s) = Some marked ->
  allocations (gc_collect P s) = marked /\
  trace (gc_collect P s) = trace s ++ EvCollect ::
    map (fun e => EvFree e.1) (swept_entries marked (allocations s)) /\
  current_allocated (gc_collect P s) =
    wrap64 (current_allocated s - sum_sizes (swept_entries marked (allocations s))) /\
  (forall x, mem (gc_collect P s) x =
     if overwrite_reclaimed_blocks s
        && in_swept_block marked (map_to_list (allocations s)) x
     then 171 else mem s x).
Proof.
  intros Hm. pose proof (gc_collect_unfold P s marked Hm) as Hc.
  pose proof (sweep_fold_spec (overwrite_reclaimed_blocks s) marked
                (map_to_list (allocations s)) (mem s) (trace s ++ [EvCollect]) 0
                eq_refl) as Hs.
  unfold sweep in Hc.
  destruct (fold_left _ _ _) as [[m' tr'] t'].
  rewrite Hc. simpl. destruct Hs as (H1 & H2 & H3).
  split; [reflexivity|split; [|split]].
  - rewrite H1, <- app_assoc. reflexivity.
  - rewrite H2, wrap64_sub_r. reflexivity.
  - exact H3.
Qed.

(** C2: in the sweep of every collection each entry of the allocation
    table absent from the mark set is freed, its bytes are overwritten
    with [0xab] when the overwrite flag is set, and its size is
    subtracted from the running total (modulo [2^64], as [size_t]); no
    other byte changes, and the table becomes the mark set. *)
Theorem gc_collect_sweeps_unmarked (P : platform) (s : gc_state) :
  exists marked,
  gc_mark s (plat_registers P s) (plat_stack_pointer P s) = Some marked /\
  allocations (gc_collect P s) = marked /\
  trace (gc_collect P s) = trace s ++ EvCollect ::
    map (fun e => EvFree e.1) (swept_entries marked (allocations s)) /\
  current_allocated (gc_collect P s) =
    wrap64 (current_allocated s - sum_sizes (swept_entries marked (allocations s))) /\
  (forall a n, allocations s !! a = Some n -> marked !! a = None ->
     In (EvFree a) (trace (gc_collect P s)) /\
     (overwrite_reclaimed_blocks s = true ->
      forall x, a <= x < a + n -> mem (gc_collect P s) x = 171)) /\
  (forall x, in_swept_block marked (map_to_list (allocations s)) x = false ->
     mem (gc_collect P s) x = mem s x).
Proof.
  destruct (gc_mark_spec s (plat_registers P s) (plat_stack_pointer P s))
    as (marked & Hm & _ & _).
  destruct (gc_collect_sweep_spec P s marked Hm) as (H1 & H2 & H3 & H4).
  exists marked. split; [exact Hm|]. split; [exact H1|]. split; [exact H2|].
  split; [exact H3|]. split.
  - intros a n Ha Hma.
    assert (Hin : In (a, n) (map_to_list (allocations s)))
      by (apply list_elem_of_In, elem_of_map_to_list; exact Ha).
    split.
    + rewrite H2. apply in_or_app. right. right. apply in_map_iff. exists (a, n). split; [reflexivity|].
      unfold swept_entries. apply filter_In. split; [exact Hin|].
      unfold unmarked. simpl. rewrite Hma. reflexivity.
    + intros Hov x Hx. rewrite H4, Hov.
      rewrite (in_swept_block_true _ _ a n x Hin Hma Hx). reflexivity.
  - intros x Hx. rewrite H4, Hx, andb_false_r. reflexivity.
Qed.

(** ** Reachable blocks survive a collection *)

Lemma in_swept_block_inv (marked : heapmap) (l : list (Z * Z)) x :
  in_swept_block marked l x = true ->
  exists b k, In (b, k) l /\ marked !! b = None /\ b <= x < b + k.
Proof.
  unfold in_swept_block. intros H. apply existsb_exists in H.
  destruct H as ([b k] & Hin & H). simpl in H.
  apply andb_prop in H as [H Hlt]. apply andb_prop in H as [Hu Hle].
  unfold unmarked in Hu. simpl in Hu.
  destruct (marked !! b) eqn:Hb; [discriminate|].
  apply Z.leb_le in Hle. apply Z.ltb_lt in Hlt.
  exists b, k. auto.
Qed.

(** C3: a block reachable from the roots when a collection starts keeps
    its table entry and every one of its bytes; the collection frees and
    overwrites only blocks of the table that were not reachable. *)
Theorem gc_collect_preserves_reachable (P : platform) (s : gc_state) :
  blocks_disjoint (allocations s) ->
  let roots := root_words s (plat_registers P s) (plat_stack_pointer P s) in
  (forall a n, allocations s !! a = Some n ->
     reachable (allocations s) (mem s) roots a ->
     allocations (gc_collect P s) !! a = Some n /\
     forall x, a <= x < a + n -> mem (gc_collect P s) x = mem s x) /\
  (forall b, In (EvFree b) (trace (gc_collect P s)) -> In (EvFree b) (trace s) \/
     exists k, allocations s !! b = Some k /\
               ~ reachable (allocations s) (mem s) roots b) /\
  (forall x, mem (gc_collect P s) x <> mem s x ->
     exists b k, allocations s !! b = Some k /\
       ~ reachable (allocations s) (mem s) roots b /\ b <= x < b + k).
Proof.
  intros Hdisj roots.
  destruct (gc_mark_spec s (plat_registers P s) (plat_stack_pointer P s))
    as (marked & Hm & Hsub & Hiff).
  destruct (gc_collect_sweep_spec P s marked Hm) as (H1 & H2 & _ & H4).
  fold roots in Hiff.
  assert (Hun : forall b k, In (b, k) (map_to_list (allocations s)) ->
             marked !! b = None ->
             allocations s !! b = Some k /\
             ~ reachable (allocations s) (mem s) roots b).
  { intros b k Hin Hb. split.
    - apply elem_of_map_to_list, list_elem_of_In. exact Hin.
    - intros Hr. apply Hiff in Hr as [y Hy]. congruence. }
  split; [|split].
  - intros a n Ha Hr. assert (Hma : marked !! a = Some n).
    { apply Hiff in Hr as [y Hy].
      pose proof (lookup_weaken _ _ _ _ Hy Hsub). congruence. }
    split; [rewrite H1; exact Hma|].
    intros x Hx. rewrite H4.
    destruct (in_swept_block marked (map_to_list (allocations s)) x) eqn:Hsw;
      [|rewrite andb_false_r; reflexivity].
    exfalso. destruct (in_swept_block_inv _ _ _ Hsw) as (b & k & Hin & Hb & Hbx).
    destruct (Hun b k Hin Hb) as [Hbk _].
    assert (a <> b) by congruence.
    destruct (Hdisj a n b k Ha Hbk ltac:(assumption)); lia.
  - intros b Hin. rewrite H2 in Hin. apply in_app_iff in Hin as [Hin|[Hin|Hin]];
      [left; exact Hin|discriminate|right].
    apply in_map_iff in Hin as ([b' k] & He & Hin). simpl in He. injection He as ->.
    unfold swept_entries in Hin. apply filter_In in Hin as [Hin Hu].
    unfold unmarked in Hu. simpl in Hu.
    destruct (marked !! b) eqn:Hb; [discriminate|].
    exists k. exact (Hun b k Hin Hb).
  - intros x Hx. rewrite H4 in Hx.
    destruct (overwrite_reclaimed_blocks s && in_swept_block marked
                (map_to_list (allocations s)) x) eqn:Hsw; [|congruence].
    apply andb_prop in Hsw as [_ Hsw].
    destruct (in_swept_block_inv _ _ _ Hsw) as (b & k & Hin & Hb & Hbx).
    exists b, k. destruct (Hun b k Hin Hb). auto.
Qed.

(** ** The running total and the cap *)

Lemma sum_sizes_app (l1 l2 : list (Z * Z)) :
  sum_sizes (l1 ++ l2) = sum_sizes l1 + sum_sizes l2.
Proof. induction l1 as [|[a n] l1 IH]; simpl; lia. Qed.

Lemma sum_sizes_perm (l1 l2 : list (Z * Z)) :
  Permutation l1 l2 -> sum_sizes l1 = sum_sizes l2.
Proof.
  induction 1 as [|[a n] l1 l2 _ IH|[a n] [b k] l|l1 l2 l3 _ IH1 _ IH2];
    simpl; lia.
Qed.

Lemma sum_sizes_filter_split (f : Z * Z -> bool) (l : list (Z * Z)) :
  sum_sizes l = sum_sizes (List.filter f l)
                + sum_sizes (List.filter (fun e => negb (f e)) l).
Proof.
  induction l as [|[a n] l IH]; simpl; [reflexivity|].
  destruct (f (a, n)); simpl; lia.
Qed.

Lemma sum_sizes_nonneg (l : list (Z * Z)) :
  (forall a n, In (a, n) l -> 0 <= n) -> 0 <= sum_sizes l.
Proof.
  induction l as [|[a n] l IH]; intros H; simpl; [lia|].
  pose proof (H a n (or_introl eq_refl)).
  assert (0 <= sum_sizes l) by (apply IH; intros; eapply H; right; eauto). lia.
Qed.

Lemma heap_total_nonneg (alloc : heapmap) :
  (forall k n, alloc !! k = Some n -> 0 <= n) -> 0 <= heap_total alloc.
Proof.
  intros H. apply sum_sizes_nonneg. intros a n Hin.
  apply (H a), elem_of_map_to_list, list_elem_of_In. exact Hin.
Qed.

Lemma heap_total_insert (alloc : heapmap) p n :
  alloc !! p = None -> heap_total (<[p:=n]> alloc) = n + heap_total alloc.
Proof.
  intros Hp. unfold heap_total.
  rewrite (sum_sizes_perm _ _ (map_to_list_insert alloc p n Hp)). reflexivity.
Qed.

(** The table splits into the mark set and the swept entries. *)
Lemma heap_total_split (marked alloc : heapmap) :
  marked ⊆ alloc ->
  heap_total alloc = heap_total marked + sum_sizes (swept_entries marked alloc).
Proof.
  intros Hsub. unfold heap_total, swept_entries.
  rewrite (sum_sizes_filter_split (unmarked marked)). rewrite Z.add_comm. f_equal.
  apply sum_sizes_perm, NoDup_Permutation.
  - apply NoDup_ListNoDup, List.NoDup_filter, NoDup_ListNoDup, NoDup_map_to_list.
  - apply NoDup_map_to_list.
  - intros [k n]. rewrite !list_elem_of_In, filter_In, <- !list_elem_of_In,
      !elem_of_map_to_list.
    unfold unmarked. simpl. split.
    + intros [Ha Hm]. destruct (marked !! k) as [y|] eqn:Hk; [|discriminate].
      pose proof (lookup_weaken _ _ _ _ Hk Hsub). congruence.
    + intros Hk. rewrite Hk. split; [eapply lookup_weaken; eauto|reflexivity].
Qed.

Lemma internal_alloc_fields (P : platform) (s : gc_state) (size : Z) :
  allocations (internal_alloc P s size).2 = allocations s /\
  current_allocated (internal_alloc P s size).2 = current_allocated s /\
  max_heap_size (internal_alloc P s size).2 = max_heap_size s.
Proof. unfold internal_alloc. destruct (_ && _); simpl; auto. Qed.

(** A non-null result of [internal_alloc] passed the cap check and came
    from [calloc]. *)
Lemma internal_alloc_nonnull (P : platform) (s : gc_state) (size : Z) :
  (internal_alloc P s size).1 <> 0 ->
  (internal_alloc P s size).1 = plat_calloc P s size /\
  (max_heap_size s <= 0 \/ wrap64 (current_allocated s + size) <= max_heap_size s).
Proof.
  unfold internal_alloc.
  destruct (0 <? max_heap_size s) eqn:H1;
    destruct (max_heap_size s <? wrap64 (current_allocated s + size)) eqn:H2;
    simpl; intros Hp; try congruence; split; try reflexivity.
  - right. apply Z.ltb_ge. exact H2.
  - left. apply Z.ltb_ge. exact H1.
  - left. apply Z.ltb_ge. exact H1.
Qed.

Lemma gc_collect_max_heap_size (P : platform) (s : gc_state) :
  max_heap_size (gc_collect P s) = max_heap_size s.
Proof.
  unfold gc_collect. destruct (gc_mark _ _ _); [|reflexivity].
  destruct (sweep _ _ _ _ _) as [[m' tr'] t']. reflexivity.
Qed.

Lemma wrap64_small (x : Z) : 0 <= x < word_modulus -> wrap64 x = x.
Proof. unfold wrap64. apply Z.mod_small. Qed.

Lemma gc_collect_inv (P : platform) (cap : Z) (s : gc_state) :
  gc_inv cap s -> gc_inv cap (gc_collect P s).
Proof.
  intros (Hpos & Hmax & Hcur & Hlt & Hcap & Hnn).
  destruct (gc_mark_spec s (plat_registers P s) (plat_stack_pointer P s))
    as (marked & Hm & Hsub & _).
  destruct (gc_collect_sweep_spec P s marked Hm) as (H1 & _ & H3 & _).
  pose proof (heap_total_split marked (allocations s) Hsub) as Hsplit.
  assert (Hnn' : forall k n, marked !! k = Some n -> 0 <= n)
    by (intros k n Hk; eapply Hnn, lookup_weaken; eauto).
  pose proof (heap_total_nonneg marked Hnn') as Hm0.
  assert (0 <= sum_sizes (swept_entries marked (allocations s))).
  { apply sum_sizes_nonneg. intros a n Hin. unfold swept_entries in Hin.
    apply filter_In in Hin as [Hin _].
    apply (Hnn a), elem_of_map_to_list, list_elem_of_In. exact Hin. }
  unfold gc_inv. rewrite gc_collect_max_heap_size, H1, H3.
  rewrite wrap64_small by lia.
  repeat split; try lia; assumption.
Qed.

(** Recording a non-null result of [internal_alloc], as [gc_alloc] does,
    keeps the invariant. *)
Lemma gc_alloc_record_inv (P : platform) (cap : Z) (t : gc_state) (size : Z) :
  calloc_sane P -> 0 <= size < word_modulus -> gc_inv cap t ->
  let '(p, t') := internal_alloc P t size in
  p <> 0 ->
  gc_inv cap (mk_gc_state (mem t') (<[p:=size]> (allocations t'))
               (wrap64 (current_allocated t' + size)) (max_heap_size t')
               (overwrite_reclaimed_blocks t') (stack_start t') (stack_length t')
               (data_segment_start t') (data_segment_length t') (trace t')).
Proof.
  intros Hsane Hsize (Hpos & Hmax & Hcur & Hlt & Hcap & Hnn).
  pose proof (internal_alloc_fields P t size) as (F1 & F2 & F3).
  pose proof (internal_alloc_nonnull P t size) as Hok.
  destruct (internal_alloc P t size) as [p t'] eqn:E. simpl in *.
  intros Hp. destruct (Hok Hp) as [-> Hchk].
  destruct (Hsane t size Hsize Hp) as [Hfresh Hfit].
  unfold gc_inv. simpl. rewrite F1, F2, F3.
  rewrite heap_total_insert by exact Hfresh.
  pose proof (heap_total_nonneg _ Hnn) as H0.
  assert (Hw : wrap64 (current_allocated t + size) = current_allocated t + size)
    by (apply wrap64_small; lia).
  rewrite Hw in *. repeat split; try lia; try (destruct Hchk; lia).
  intros k n Hk. destruct (decide (k = plat_calloc P t size)) as [->|Hne].
  - rewrite lookup_insert_eq in Hk. injection Hk as <-. lia.
  - rewrite lookup_insert_ne in Hk by congruence. eauto.
Qed.

Lemma gc_alloc_inv (P : platform) (cap : Z) (s : gc_state) (size : Z) :
  calloc_sane P -> 0 <= size < word_modulus -> gc_inv cap s ->
  gc_inv cap (gc_alloc P s size).2.
Proof.
  intros Hsane Hsize Hinv.
  assert (Hfield : forall t, gc_inv cap t -> gc_inv cap (internal_alloc P t size).2).
  { intros t (Hpos & Hmax & Hcur & Hlt & Hcap & Hnn).
    destruct (internal_alloc_fields P t size) as (F1 & F2 & F3).
    unfold gc_inv. rewrite F1, F2, F3. repeat split; auto. }
  pose proof (gc_alloc_record_inv P cap s size Hsane Hsize Hinv) as R1.
  pose proof (Hfield s Hinv) as I1.
  unfold gc_alloc. destruct (internal_alloc P s size) as [p1 s1] eqn:E1. simpl in I1.
  destruct (p1 =? 0) eqn:Z1.
  - pose proof (gc_collect_inv P cap s1 I1) as I2.
    pose proof (gc_alloc_record_inv P cap _ size Hsane Hsize I2) as R2.
    pose proof (Hfield _ I2) as I3.
    destruct (internal_alloc P (gc_collect P s1) size) as [p2 s2] eqn:E2.
    simpl in I3. destruct (p2 =? 0) eqn:Z2; [exact I3|].
    apply R2. apply Z.eqb_neq. exact Z2.
  - simpl. rewrite Z1. apply R1. apply Z.eqb_neq. exact Z1.
Qed.

Lemma run_ops_inv (P : platform) (cap : Z) (ops : list gc_op) :
  calloc_sane P -> ops_valid ops ->
  forall s, gc_inv cap s -> gc_inv cap (run_ops P ops s).
Proof.
  intros Hsane Hops. induction Hops as [|o ops Ho _ IH]; intros s Hs; simpl; [exact Hs|].
  destruct o as [size|].
  - apply IH, gc_alloc_inv; assumption.
  - apply IH, gc_collect_inv. exact Hs.
Qed.

(** C6: with a nonzero cap configured, and starting from a consistent
    state within the cap (e.g. the initial one: empty table, total 0), no
    sequence of [gc_alloc] and [gc_collect] calls, at any point (any
    prefix [take n ops]), takes the running total above the cap; the
    running total stays the byte count of the table. *)
Theorem gc_total_within_cap (P : platform) (s : gc_state) (ops : list gc_op) :
  calloc_sane P -> ops_valid ops ->
  0 < max_heap_size s < word_modulus ->
  current_allocated s = heap_total (allocations s) ->
  current_allocated s <= max_heap_size s ->
  (forall k n, allocations s !! k = Some n -> 0 <= n) ->
  forall i,
  current_allocated (run_ops P (take i ops) s) <= max_heap_size s /\
  current_allocated (run_ops P (take i ops) s) =
    heap_total (allocations (run_ops P (take i ops) s)).
Proof.
  intros Hsane Hops Hcap Hcur Hle Hnn i.
  assert (Hv : ops_valid (take i ops)).
  { unfold ops_valid in *. rewrite <- (take_drop i ops) in Hops.
    apply Forall_app in Hops. tauto. }
  assert (Hinv : gc_inv (max_heap_size s) s) by (repeat split; auto; lia).
  destruct (run_ops_inv P _ _ Hsane Hv s Hinv) as (_ & _ & Hc & _ & Hl & _).
  split; assumption.
Qed.

Lemma blocks_disjointb_sound (alloc : heapmap) :
  blocks_disjointb alloc = true -> blocks_disjoint alloc.
Proof.
  unfold blocks_disjointb. intros H a n b k Ha Hb Hne.
  rewrite forallb_forall in H.
  assert (Hia : In (a, n) (map_to_list alloc))
    by (apply list_elem_of_In, elem_of_map_to_list; exact Ha).
  assert (Hib : In (b, k) (map_to_list alloc))
    by (apply list_elem_of_In, elem_of_map_to_list; exact Hb).
  specialize (H _ Hia). rewrite forallb_forall in H. specialize (H _ Hib).
  simpl in H. apply orb_prop in H as [H|H]; [apply orb_prop in H as [H|H]|].
  - apply Z.eqb_eq in H. contradiction.
  - apply Z.leb_le in H. lia.
  - apply Z.leb_le in H. lia.
Qed.

Lemma ex_calloc_sane : calloc_sane ex_platform.
Proof.
  intros s size Hsize Hp. simpl in *. unfold ex_calloc in *.
  destruct (allocations s !! 20480) eqn:E; [congruence|].
  destruct (size <=? 4096) eqn:E1; simpl in *; [|congruence].
  destruct (heap_total (allocations s) + size <? word_modulus) eqn:E2; [|congruence].
  split; [exact E|]. apply Z.ltb_lt. exact E2.
Qed.

Lemma sizes_nonnegb_sound (alloc : heapmap) :
  sizes_nonnegb alloc = true -> forall k n, alloc !! k = Some n -> 0 <= n.
Proof.
  unfold sizes_nonnegb. intros H k n Hk. rewrite forallb_forall in H.
  apply Z.leb_le, (H (k, n)), list_elem_of_In, elem_of_map_to_list. exact Hk.
Qed.

Lemma in_of_existsb (x : Z) (l : list Z) : existsb (Z.eqb x) l = true -> In x l.
Proof.
  intros H. apply existsb_exists in H as (y & Hy & Hxy).
  apply Z.eqb_eq in Hxy. subst. exact Hy.
Qed.

(** ** The allocation path *)

Lemma internal_alloc_trace (P : platform) (t : gc_state) (size : Z) :
  let '(p, t') := internal_alloc P t size in
  (trace t' = trace t /\ p = 0) \/ trace t' = trace t ++ [EvCalloc size p].
Proof. unfold internal_alloc. destruct (_ && _); [left|right]; auto. Qed.

Lemma gc_collect_trace (P : platform) (t : gc_state) :
  exists frees, trace (gc_collect P t) = trace t ++ EvCollect :: map EvFree frees.
Proof.
  destruct (gc_mark_spec t (plat_registers P t) (plat_stack_pointer P t))
    as (marked & Hm & _ & _).
  destruct (gc_collect_sweep_spec P t marked Hm) as (_ & H2 & _ & _).
  exists (map fst (swept_entries marked (allocations t))).
  rewrite H2, map_map. reflexivity.
Qed.

(** C4: [gc_alloc] makes one allocation attempt ([internal_alloc]); only
    when it yields null does it run exactly one collection and then retry
    [internal_alloc] exactly once on the collected state, returning what
    the retry returns; when the retry yields null the result is null and
    nothing else happens (the only calls are at most one [calloc] per
    attempt and the frees of the single collection). *)
Theorem gc_alloc_retries_once (P : platform) (s : gc_state) (size : Z) :
  let '(p, s') := gc_alloc P s size in
  ((internal_alloc P s size).1 <> 0 ->
   p = (internal_alloc P s size).1 /\ trace s' = trace s ++ [EvCalloc size p]) /\
  ((internal_alloc P s size).1 = 0 ->
   p = (internal_alloc P (gc_collect P (internal_alloc P s size).2) size).1 /\
   exists a1 frees a2,
     trace s' = trace s ++ a1 ++ EvCollect :: map EvFree frees ++ a2 /\
     (a1 = [] \/ a1 = [EvCalloc size 0]) /\
     ((a2 = [] /\ p = 0) \/ a2 = [EvCalloc size p])).
Proof.
  pose proof (internal_alloc_trace P s size) as T1.
  unfold gc_alloc. destruct (internal_alloc P s size) as [p1 s1] eqn:E1. simpl.
  destruct (p1 =? 0) eqn:Z1.
  - apply Z.eqb_eq in Z1. subst p1.
    pose proof (internal_alloc_trace P (gc_collect P s1) size) as T2.
    destruct (gc_collect_trace P s1) as [frees Hc].
    destruct (internal_alloc P (gc_collect P s1) size) as [p2 s2] eqn:E2. simpl.
    assert (Ha1 : exists a1, trace s1 = trace s ++ a1 /\
                             (a1 = [] \/ a1 = [EvCalloc size 0])).
    { destruct T1 as [[-> _]| ->]; [exists []; rewrite app_nil_r|eexists]; eauto. }
    destruct Ha1 as (a1 & Ht1 & Ha1).
    destruct (p2 =? 0) eqn:Z2; simpl; (split; [congruence|intros _]).
    + apply Z.eqb_eq in Z2. subst p2. split; [reflexivity|].
      destruct T2 as [[Ht2 _]|Ht2].
      * exists a1, frees, []. split; [|auto].
        rewrite Ht2, Hc, Ht1, ?app_nil_r, <- ?app_assoc. reflexivity.
      * exists a1, frees, [EvCalloc size 0]. split; [|auto].
        rewrite Ht2, Hc, Ht1, <- ?app_assoc. simpl. rewrite <- ?app_assoc. reflexivity.
    + split; [reflexivity|].
      destruct T2 as [[_ ->]|Ht2]; [discriminate|].
      exists a1, frees, [EvCalloc size p2]. split; [|auto].
      rewrite Ht2, Hc, Ht1, <- ?app_assoc. simpl. rewrite <- ?app_assoc. reflexivity.
  - simpl. rewrite Z1. apply Z.eqb_neq in Z1. split; [|intros; contradiction].
    intros _. split; [reflexivity|]. destruct T1 as [[_ ->]| Ht1]; [contradiction|].
    exact Ht1.
Qed.

(** ** The cap *)

(** C5 (as stated, refuted): a request over the cap does trigger a
    collection.  With 48 of 64 capped bytes in use, [gc_alloc(40)] is denied
    by [internal_alloc] and [gc_alloc] then runs [gc_collect]. *)
Lemma gc_alloc_cap_denial_collects_ex :
  0 < max_heap_size ex_state /\
  max_heap_size ex_state < current_allocated ex_state + 40 /\
  In EvCollect (trace (gc_alloc ex_platform ex_state 40).2).
Proof.
  split; [vm_compute; reflexivity|split; [vm_compute; reflexivity|]].
  vm_compute. left. reflexivity.
Qed.

(** C5 (amended): when a nonzero cap is configured and the request would
    take the total over it (the sum computed without overflow),
    [internal_alloc] fails at once without calling [calloc] and without
    changing anything.  [gc_alloc] then runs exactly one collection and
    retries the capped allocation exactly once: its result is that of the
    retry, and after the collection's event and frees the log holds at
    most the retry's one [calloc]. *)
Theorem internal_alloc_cap_denied (P : platform) (s : gc_state) (size : Z) :
  0 < max_heap_size s ->
  max_heap_size s < current_allocated s + size ->
  0 <= current_allocated s + size < word_modulus ->
  internal_alloc P s size = (0, s) /\
  (gc_alloc P s size).1 = (internal_alloc P (gc_collect P s) size).1 /\
  exists frees retry,
    trace (gc_alloc P s size).2 = trace s ++ EvCollect :: map EvFree frees ++ retry /\
    ((retry = [] /\ (gc_alloc P s size).1 = 0) \/
     retry = [EvCalloc size (gc_alloc P s size).1]).
Proof.
  intros Hpos Hover Hrange.
  assert (Hden : internal_alloc P s size = (0, s)).
  { unfold internal_alloc. rewrite wrap64_small by exact Hrange.
    apply Z.ltb_lt in Hpos. apply Z.ltb_lt in Hover. rewrite Hpos, Hover. reflexivity. }
  split; [exact Hden|].
  destruct (gc_collect_trace P s) as [frees Hc].
  pose proof (internal_alloc_trace P (gc_collect P s) size) as T2.
  unfold gc_alloc. rewrite Hden. simpl.
  destruct (internal_alloc P (gc_collect P s) size) as [p2 s2] eqn:E2.
  destruct (p2 =? 0) eqn:Z2; simpl.
  - apply Z.eqb_eq in Z2. subst p2. split; [reflexivity|]. exists frees.
    destruct T2 as [[Ht2 _]|Ht2].
    + exists []. rewrite Ht2, Hc, app_nil_r. split; [reflexivity|left; auto].
    + exists [EvCalloc size 0]. rewrite Ht2, Hc, <- app_assoc. split; [reflexivity|right; auto].
  - split; [reflexivity|]. exists frees.
    destruct T2 as [[_ ->]|Ht2]; [discriminate|].
    exists [EvCalloc size p2]. rewrite Ht2, Hc, <- app_assoc. split; [reflexivity|right; auto].
Qed.

Lemma internal_alloc_cap_denied_witness :
  0 < max_heap_size ex_state /\
  max_heap_size ex_state < current_allocated ex_state + 40 /\
  (0 <= current_allocated ex_state + 40 < word_modulus) /\
  internal_alloc ex_platform ex_state 40 = (0, ex_state) /\
  (gc_alloc ex_platform ex_state 40).1 =
    (internal_alloc ex_platform (gc_collect ex_platform ex_state) 40).1.
Proof.
  assert (H1 : 0 < max_heap_size ex_state) by (vm_compute; reflexivity).
  assert (H2 : max_heap_size ex_state < current_allocated ex_state + 40)
    by (vm_compute; reflexivity).
  assert (H3 : 0 <= current_allocated ex_state + 40 < word_modulus)
    by (unfold word_modulus; simpl; lia).
  destruct (internal_alloc_cap_denied ex_platform ex_state 40 H1 H2 H3)
    as (H4 & H5 & _).
  split; [exact H1|split; [exact H2|split; [exact H3|split; [exact H4|exact H5]]]].
Defined.

(** C10: with the maximum heap size set to zero the cap check never
    denies: [internal_alloc] calls [calloc] for every size. *)
Theorem gc_zero_max_heap_disables_cap (P : platform) (s : gc_state) (size : Z) :
  let s0 := gc_debug_set_max_heap s 0 in
  (internal_alloc P s0 size).1 = plat_calloc P s0 size /\
  trace (internal_alloc P s0 size).2 = trace s ++ [EvCalloc size (plat_calloc P s0 size)].
Proof. split; reflexivity. Qed.

(** ** What a successful allocation records *)

(** C7 (as stated, refuted): [gc_alloc] does not just add one entry and
    [size] to the total.  With 48 of 64 capped bytes in use, [gc_alloc(40)]
    succeeds only after its collection reclaimed the 24-byte block at
    12288: the total ends at 64, not 88, and the entry at 12288 is gone. *)
Lemma gc_alloc_after_collect_ex :
  let '(p, s') := gc_alloc ex_platform ex_state 40 in
  p <> 0 /\
  current_allocated s' <> current_allocated ex_state + 40 /\
  allocations s' !! 12288 <> (<[p:=40]> (allocations ex_state)) !! 12288.
Proof. vm_compute. repeat split; intro H; discriminate H. Qed.

Lemma internal_alloc_success (P : platform) (t : gc_state) (size : Z) :
  calloc_sane P -> 0 <= size < word_modulus ->
  (internal_alloc P t size).1 <> 0 ->
  allocations t !! (internal_alloc P t size).1 = None /\
  forall x, (internal_alloc P t size).1 <= x < (internal_alloc P t size).1 + size ->
            mem (internal_alloc P t size).2 x = 0.
Proof.
  intros Hsane Hsize Hp.
  destruct (internal_alloc_nonnull P t size Hp) as [Heq _].
  rewrite Heq in Hp |- *. split; [apply (Hsane t size Hsize Hp)|].
  intros x Hx. unfold internal_alloc in *.
  destruct (_ && _); simpl in *; [congruence|].
  apply Z.eqb_neq in Hp. rewrite Hp. unfold memset.
  replace ((plat_calloc P t size <=? x) && (x <? plat_calloc P t size + size))
    with true; [reflexivity|].
  symmetry. apply andb_true_intro. split; [apply Z.leb_le|apply Z.ltb_lt]; lia.
Qed.

(** C7 (amended): let [t] be the state [gc_alloc] allocates in: the state
    at the call when its first attempt succeeds, the state after its one
    collection otherwise.  On success the result is zero-filled memory,
    the table is that of [t] plus exactly the new entry [(p, size)] ([p]
    was not a key), and the total is that of [t] plus [size]; on failure
    no entry is inserted: table and total are those of [t]. *)
Theorem gc_alloc_records_one_entry (P : platform) (s : gc_state) (size : Z) :
  calloc_sane P -> 0 <= size < word_modulus ->
  let t := if (internal_alloc P s size).1 =? 0
           then gc_collect P (internal_alloc P s size).2 else s in
  let '(p, s') := gc_alloc P s size in
  (p <> 0 ->
   allocations t !! p = None /\
   allocations s' = <[p:=size]> (allocations t) /\
   current_allocated s' = wrap64 (current_allocated t + size) /\
   forall x, p <= x < p + size -> mem s' x = 0) /\
  (p = 0 ->
   allocations s' = allocations t /\ current_allocated s' = current_allocated t).
Proof.
  intros Hsane Hsize t.
  (* recording the result of an attempt made in state [u] *)
  assert (Hrec : forall u, let '(p, u') := internal_alloc P u size in
     (p <> 0 -> allocations u !! p = None /\
        allocations u' = allocations u /\
        current_allocated u' = current_allocated u /\
        forall x, p <= x < p + size -> mem u' x = 0) /\
     (allocations u' = allocations u /\ current_allocated u' = current_allocated u)).
  { intros u. pose proof (internal_alloc_success P u size Hsane Hsize) as Hs.
    pose proof (internal_alloc_fields P u size) as (F1 & F2 & _).
    destruct (internal_alloc P u size) as [p u']. simpl in *.
    split; [|auto]. intros Hp. destruct (Hs Hp). auto. }
  unfold t. clear t. unfold gc_alloc.
  pose proof (Hrec s) as R1.
  destruct (internal_alloc P s size) as [p1 s1] eqn:E1. simpl.
  destruct (p1 =? 0) eqn:Z1.
  - pose proof (Hrec (gc_collect P s1)) as R2.
    destruct (internal_alloc P (gc_collect P s1) size) as [p2 s2] eqn:E2.
    destruct R2 as [R2s R2f].
    destruct (p2 =? 0) eqn:Z2; simpl.
    + apply Z.eqb_eq in Z2. subst p2. split; [intros; contradiction|intros _; exact R2f].
    + apply Z.eqb_neq in Z2. split; [|intros; contradiction].
      intros _. destruct (R2s Z2) as (Hf & Ha & Hc & Hm).
      rewrite Ha, Hc. auto.
  - simpl. rewrite Z1. apply Z.eqb_neq in Z1. destruct R1 as [R1s _].
    split; [|intros; contradiction].
    intros _. destruct (R1s Z1) as (Hf & Ha & Hc & Hm). rewrite Ha, Hc. auto.
Qed.

Lemma gc_alloc_records_one_entry_witness :
  calloc_sane ex_platform /\ (0 <= 40 < word_modulus) /\
  (gc_alloc ex_platform ex_state 40).1 = 20480 /\
  allocations (gc_alloc ex_platform ex_state 40).2 =
    <[20480:=40]> (allocations (gc_collect ex_platform ex_state)).
Proof.
  assert (Hs : 0 <= 40 < word_modulus) by (unfold word_modulus; lia).
  pose proof (gc_alloc_records_one_entry ex_platform ex_state 40 ex_calloc_sane Hs)
    as H.
  assert (Hp : (gc_alloc ex_platform ex_state 40).1 = 20480)
    by (vm_compute; reflexivity).
  assert (Ht : (internal_alloc ex_platform ex_state 40).1 = 0)
    by (vm_compute; reflexivity).
  assert (Hst : (internal_alloc ex_platform ex_state 40).2 = ex_state)
    by (vm_compute; reflexivity).
  split; [exact ex_calloc_sane|split; [exact Hs|split; [exact Hp|]]].
  rewrite Ht, Hst in H. cbv zeta in H. simpl in H.
  destruct (gc_alloc ex_platform ex_state 40) as [p s'] eqn:E.
  simpl in Hp |- *. subst p.
  destruct H as [H _]. destruct (H ltac:(discriminate)) as (_ & Ha & _). exact Ha.
Defined.

(** ** Initialisation *)

(** C9 (code defect): a failing stack query ([kr] nonzero) ends in
    [exit(1)], but a null result of [getsegbyname("__DATA")] is
    dereferenced without a check ([dataSeg->vmaddr]): undefined behaviour
    instead of the deliberate termination. *)
Theorem gc_init_null_data_segment (address_info size_info slide : Z)
    (dataSeg : option (Z * Z)) :
  gc_init false 1 address_info size_info dataSeg slide = InitExit 1 /\
  gc_init false 0 address_info size_info None slide = InitUndefined.
Proof. split; reflexivity. Qed.

(** ** Witnesses on the example heap *)

Lemma gc_collect_preserves_reachable_witness :
  blocks_disjoint (allocations ex_state) /\
  allocations (gc_collect ex_platform ex_state) !! 8192 = Some 8 /\
  (forall x, 8192 <= x < 8192 + 8 ->
     mem (gc_collect ex_platform ex_state) x = mem ex_state x).
Proof.
  assert (Hd : blocks_disjoint (allocations ex_state))
    by (apply blocks_disjointb_sound; vm_compute; reflexivity).
  pose proof (gc_collect_preserves_reachable ex_platform ex_state Hd) as H.
  cbv zeta in H. destruct H as [H _].
  assert (R : reachable (allocations ex_state) (mem ex_state)
                (root_words ex_state [1; 2; 3] 2000) 8192).
  { apply (reach_step _ _ _ 4096 16 8192 8).
    - apply (reach_root _ _ _ 4096 16);
        [apply in_of_existsb; vm_compute; reflexivity|vm_compute; reflexivity].
    - vm_compute. reflexivity.
    - apply in_of_existsb. vm_compute. reflexivity.
    - vm_compute. reflexivity. }
  destruct (H 8192 8 ltac:(vm_compute; reflexivity) R) as [Ha Hm].
  split; [exact Hd|split; [exact Ha|exact Hm]].
Defined.

Lemma gc_total_within_cap_witness :
  calloc_sane ex_platform /\
  ops_valid [OpAlloc 40; OpCollect; OpAlloc 8] /\
  0 < max_heap_size ex_state < word_modulus /\
  current_allocated ex_state = heap_total (allocations ex_state) /\
  current_allocated ex_state <= max_heap_size ex_state /\
  (forall k n, allocations ex_state !! k = Some n -> 0 <= n) /\
  current_allocated (run_ops ex_platform (take 3 [OpAlloc 40; OpCollect; OpAlloc 8])
                       ex_state) <= max_heap_size ex_state.
Proof.
  assert (Hv : ops_valid [OpAlloc 40; OpCollect; OpAlloc 8])
    by (unfold ops_valid; repeat constructor; unfold word_modulus; lia).
  assert (Hc : 0 < max_heap_size ex_state < word_modulus)
    by (unfold word_modulus; simpl; lia).
  assert (Ht : current_allocated ex_state = heap_total (allocations ex_state))
    by (vm_compute; reflexivity).
  assert (Hl : current_allocated ex_state <= max_heap_size ex_state)
    by (simpl; lia).
  assert (Hn : forall k n, allocations ex_state !! k = Some n -> 0 <= n)
    by (apply sizes_nonnegb_sound; vm_compute; reflexivity).
  destruct (gc_total_within_cap ex_platform ex_state _ ex_calloc_sane Hv Hc Ht Hl Hn 3)
    as [H _].
  split; [exact ex_calloc_sane|split; [exact Hv|split; [exact Hc|split; [exact Ht|
    split; [exact Hl|split; [exact Hn|exact H]]]]]].
Defined.

(** * Further properties of the collector and its test driver *)

(** ** The scanner's extent *)


Lemma scan_word_count_spec (start len : Z) :
  0 <= start < word_modulus -> 0 <= len < word_modulus ->
  scan_word_count start len =
    if (0 <? len) && (start + len <? word_modulus) then Z.to_nat ((len + 7) / 8)
    else O.
Proof.
  intros Hs Hl. unfold scan_word_count, wrap64.
  destruct (Z.lt_ge_cases (start + len) word_modulus) as [Hlt|Hge].
  - rewrite Z.mod_small by lia.
    destruct (Z.eq_dec len 0) as [->|Hn].
    + rewrite Z.add_0_r, Z.ltb_irrefl. reflexivity.
    + assert (Hb : (0 <? len) && (start + len <? word_modulus) = true)
        by (apply andb_true_intro; split; apply Z.ltb_lt; lia).
      rewrite Hb. replace (start <? start + len) with true
        by (symmetry; apply Z.ltb_lt; lia).
      f_equal. f_equal. lia.
  - rewrite (Z.mod_eq (start + len)) by (unfold word_modulus; lia).
    assert (Hq : (start + len) / word_modulus = 1).
    { symmetry. apply Z.div_unique with (start + len - word_modulus); unfold word_modulus in *; lia. }
    rewrite Hq.
    replace (start <? start + len - word_modulus * 1) with false
      by (symmetry; apply Z.ltb_ge; lia).
    replace (start + len <? word_modulus) with false
      by (symmetry; apply Z.ltb_ge; lia).
    rewrite andb_false_r. reflexivity.
Qed.

Lemma block_words_length (m : Mem) (start len : Z) :
  length (block_words m start len) = scan_word_count start len.
Proof. unfold block_words. rewrite length_map, length_seq. reflexivity. Qed.

Lemma block_words_in (m : Mem) (start len w : Z) :
  In w (block_words m start len) <->
  exists k, (k < scan_word_count start len)%nat /\
            w = load_word m (start + 8 * Z.of_nat k).
Proof.
  unfold block_words. rewrite in_map_iff. split.
  - intros (k & Hk & Hin). apply in_seq in Hin. exists k. split; [lia|auto].
  - intros (k & Hk & ->). exists k. split; [reflexivity|]. apply in_seq. lia.
Qed.

(** For a region [[start, start + len)] inside the address space the scan
    reads [ceil(len / 8)] words, at [start], [start + 8], ...; when [len]
    is not a multiple of 8 the last word read reaches up to 7 bytes past
    the end of the region. *)
Theorem block_words_extent (m : Mem) (start len : Z) :
  0 <= start -> 0 <= len -> start + len < word_modulus ->
  Z.of_nat (length (block_words m start len)) = (len + 7) / 8 /\
  (forall w, In w (block_words m start len) <->
     exists k, 0 <= k < (len + 7) / 8 /\ w = load_word m (start + 8 * k)) /\
  len <= 8 * ((len + 7) / 8) < len + 8.
Proof.
  intros H0 H1 H2.
  assert (Hc : Z.of_nat (scan_word_count start len) = (len + 7) / 8).
  { rewrite scan_word_count_spec by lia.
    destruct (0 <? len) eqn:E1; [|apply Z.ltb_ge in E1;
      replace len with 0 by lia; reflexivity].
    replace (start + len <? word_modulus) with true by (symmetry; apply Z.ltb_lt; lia).
    simpl. apply Z2Nat.id. apply Z.div_pos; lia. }
  split; [|split].
  - rewrite block_words_length. exact Hc.
  - intros w. rewrite block_words_in. split.
    + intros (k & Hk & ->). exists (Z.of_nat k). split; [lia|reflexivity].
    + intros (k & Hk & ->). exists (Z.to_nat k). split; [lia|].
      rewrite Z2Nat.id by lia. reflexivity.
  - pose proof (Z.div_mod (len + 7) 8 ltac:(lia)).
    pose proof (Z.mod_pos_bound (len + 7) 8 ltac:(lia)). lia.
Qed.

Lemma block_words_extent_witness :
  (0 <= 100 /\ 0 <= 13 /\ 100 + 13 < word_modulus) /\
  Z.of_nat (length (block_words ex_mem 100 13)) = 2.
Proof.
  assert (H : 0 <= 100 /\ 0 <= 13 /\ 100 + 13 < word_modulus)
    by (unfold word_modulus; lia).
  destruct H as (Ha & Hb & Hc).
  destruct (block_words_extent ex_mem 100 13 Ha Hb Hc) as [Hl _].
  split; [split; [exact Ha|split; [exact Hb|exact Hc]]|exact Hl].
Defined.

(** A region of length 0, or one whose end wraps past [2^64], is not
    scanned at all ([end < start] ends the loop at once); any other
    region is. *)
Theorem block_words_nil_iff (m : Mem) (start len : Z) :
  0 <= start < word_modulus -> 0 <= len < word_modulus ->
  block_words m start len = [] <-> len = 0 \/ word_modulus <= start + len.
Proof.
  intros Hs Hl.
  rewrite <- length_zero_iff_nil, block_words_length, scan_word_count_spec by lia.
  destruct (0 <? len) eqn:E1; destruct (start + len <? word_modulus) eqn:E2; simpl;
    rewrite ?Z.ltb_lt, ?Z.ltb_ge in E1; rewrite ?Z.ltb_lt, ?Z.ltb_ge in E2.
  - split; [|lia]. intros H.
    assert (0 < (len + 7) / 8) by (apply Z.div_str_pos; lia). lia.
  - split; [intros _; right; lia|reflexivity].
  - split; [intros _; left; lia|reflexivity].
  - split; [intros _; left; lia|reflexivity].
Qed.

Lemma block_words_nil_iff_witness :
  (0 <= 2 ^ 64 - 8 < word_modulus /\ 0 <= 16 < word_modulus) /\
  block_words ex_mem (2 ^ 64 - 8) 16 = [].
Proof.
  assert (Hs : 0 <= 2 ^ 64 - 8 < word_modulus) by (unfold word_modulus; lia).
  assert (Hl : 0 <= 16 < word_modulus) by (unfold word_modulus; lia).
  split; [split; [exact Hs|exact Hl]|].
  apply (block_words_nil_iff ex_mem (2 ^ 64 - 8) 16 Hs Hl).
  right. unfold word_modulus. lia.
Defined.

(** The stack part of the root set: with the stack pointer at or below
    the top [stack_start + stack_length] the scanned extent is exactly
    [[sp, top)]; with the stack pointer above the top the length wraps
    around and no stack word is scanned. *)
Theorem stack_scan_extent (s : gc_state) (sp : Z) :
  0 <= stack_start s -> 0 <= stack_length s ->
  stack_start s + stack_length s < word_modulus -> 0 <= sp < word_modulus ->
  (sp <= stack_start s + stack_length s ->
   stack_scan_length s sp = stack_start s + stack_length s - sp) /\
  (stack_start s + stack_length s < sp ->
   block_words (mem s) sp (stack_scan_length s sp) = []).
Proof.
  intros H0 H1 H2 H3. unfold stack_scan_length. split.
  - intros Hle. apply wrap64_small. lia.
  - intros Hlt.
    assert (Hw : wrap64 (stack_start s + stack_length s - sp)
                 = stack_start s + stack_length s - sp + word_modulus).
    { unfold wrap64. rewrite Z.mod_eq by (unfold word_modulus; lia).
      assert (Hq : (stack_start s + stack_length s - sp) / word_modulus = -1).
      { symmetry.
        apply Z.div_unique with (stack_start s + stack_length s - sp + word_modulus);
          unfold word_modulus in *; lia. }
      rewrite Hq. lia. }
    rewrite Hw. apply block_words_nil_iff; lia.
Qed.

Lemma stack_scan_extent_witness :
  (0 <= stack_start ex_state /\ 0 <= stack_length ex_state /\
   stack_start ex_state + stack_length ex_state < word_modulus /\
   0 <= 2500 < word_modulus /\ stack_start ex_state + stack_length ex_state < 2500) /\
  block_words (mem ex_state) 2500 (stack_scan_length ex_state 2500) = [].
Proof.
  assert (H : 0 <= stack_start ex_state /\ 0 <= stack_length ex_state /\
     stack_start ex_state + stack_length ex_state < word_modulus /\
     0 <= 2500 < word_modulus /\ stack_start ex_state + stack_length ex_state < 2500)
    by (simpl; unfold word_modulus; lia).
  destruct H as (H0 & H1 & H2 & H3 & H4).
  destruct (stack_scan_extent ex_state 2500 H0 H1 H2 H3) as [_ Hn].
  split; [auto 6|exact (Hn H4)].
Defined.

Lemma gc_collect_keeps_reachable_block (P : platform) (s : gc_state) (a n : Z) :
  blocks_disjoint (allocations s) -> allocations s !! a = Some n ->
  reachable (allocations s) (mem s)
    (root_words s (plat_registers P s) (plat_stack_pointer P s)) a ->
  allocations (gc_collect P s) !! a = Some n /\
  forall x, a <= x < a + n -> mem (gc_collect P s) x = mem s x.
Proof.
  intros Hdisj Ha Hr.
  destruct (gc_mark_spec s (plat_registers P s) (plat_stack_pointer P s))
    as (marked & Hm & Hsub & Hiff).
  destruct (gc_collect_sweep_spec P s marked Hm) as (H1 & _ & _ & H4).
  assert (Hma : marked !! a = Some n).
  { destruct (proj2 (Hiff a) Hr) as [y Hy].
    pose proof (lookup_weaken _ _ _ _ Hy Hsub). congruence. }
  split; [rewrite H1; exact Hma|].
  intros x Hx. rewrite H4.
  destruct (in_swept_block marked (map_to_list (allocations s)) x) eqn:Hsw;
    [|rewrite andb_false_r; reflexivity].
  exfalso. destruct (in_swept_block_inv _ _ _ Hsw) as (b & k & Hin & Hb & Hbx).
  assert (Hbk : allocations s !! b = Some k)
    by (apply elem_of_map_to_list, list_elem_of_In; exact Hin).
  assert (a <> b) by congruence.
  destruct (Hdisj a n b k Ha Hbk ltac:(assumption)); lia.
Qed.

Lemma unreferenced_not_reachable (alloc : heapmap) (m : Mem) (roots : list Z) (a : Z) :
  ~ In a roots ->
  (forall b k, b <> a -> alloc !! b = Some k -> ~ In a (block_words m b k)) ->
  forall x, reachable alloc m roots x -> x <> a.
Proof.
  intros Hroot Hblk x Hx. induction Hx as [x sz Hin Hx|x sz y szy Hrx IH Hx Hin Hy].
  - intros ->. contradiction.
  - intros ->. exact (Hblk x sz IH Hx Hin).
Qed.

Lemma unreferenced_inb_sound (m : Mem) (alloc : heapmap) (a : Z) :
  unreferenced_inb m alloc a = true ->
  forall b k, b <> a -> alloc !! b = Some k -> ~ In a (block_words m b k).
Proof.
  unfold unreferenced_inb. intros H b k Hne Hb Hin.
  rewrite forallb_forall in H.
  assert (Hi : In (b, k) (map_to_list alloc))
    by (apply list_elem_of_In, elem_of_map_to_list; exact Hb).
  specialize (H _ Hi). simpl in H. apply orb_prop in H as [H|H].
  - apply Z.eqb_eq in H. contradiction.
  - apply negb_true_iff in H.
    assert (existsb (Z.eqb a) (block_words m b k) = true)
      by (apply existsb_exists; exists a; split; [exact Hin|apply Z.eqb_refl]).
    congruence.
Qed.

Lemma not_in_of_existsb (x : Z) (l : list Z) : existsb (Z.eqb x) l = false -> ~ In x l.
Proof.
  intros H Hin.
  assert (existsb (Z.eqb x) l = true)
    by (apply existsb_exists; exists x; split; [exact Hin|apply Z.eqb_refl]).
  congruence.
Qed.

(** ** Collections *)

(** A block whose base address is held by no root word and by no word of
    any other tracked block is reclaimed by the next collection: its entry
    leaves the table, it is freed, and with the overwrite flag set all its
    bytes become [0xab].  An interior pointer does not keep a block alive. *)
Theorem gc_collect_frees_unreferenced (P : platform) (s : gc_state) (a n : Z) :
  allocations s !! a = Some n ->
  ~ In a (root_words s (plat_registers P s) (plat_stack_pointer P s)) ->
  (forall b k, b <> a -> allocations s !! b = Some k ->
     ~ In a (block_words (mem s) b k)) ->
  allocations (gc_collect P s) !! a = None /\
  In (EvFree a) (trace (gc_collect P s)) /\
  (overwrite_reclaimed_blocks s = true ->
   forall x, a <= x < a + n -> mem (gc_collect P s) x = 171).
Proof.
  intros Ha Hroot Hblk.
  destruct (gc_mark_spec s (plat_registers P s) (plat_stack_pointer P s))
    as (marked & Hm & _ & Hiff).
  destruct (gc_collect_sweep_spec P s marked Hm) as (H1 & H2 & _ & H4).
  assert (Hma : marked !! a = None).
  { destruct (marked !! a) as [y|] eqn:E; [|reflexivity]. exfalso.
    assert (Hr : is_Some (marked !! a)) by (rewrite E; eauto).
    apply Hiff in Hr.
    exact (unreferenced_not_reachable _ _ _ a Hroot Hblk a Hr eq_refl). }
  assert (Hin : In (a, n) (map_to_list (allocations s)))
    by (apply list_elem_of_In, elem_of_map_to_list; exact Ha).
  split; [rewrite H1; exact Hma|split].
  - rewrite H2. apply in_or_app. right. right. apply in_map_iff.
    exists (a, n). split; [reflexivity|].
    unfold swept_entries. apply filter_In. split; [exact Hin|].
    unfold unmarked. simpl. rewrite Hma. reflexivity.
  - intros Hov x Hx. rewrite H4, Hov.
    rewrite (in_swept_block_true _ _ a n x Hin Hma Hx). reflexivity.
Qed.

Lemma gc_collect_frees_unreferenced_witness :
  (allocations ex_state !! 12288 = Some 24 /\
   ~ In 12288 (root_words ex_state (plat_registers ex_platform ex_state)
                 (plat_stack_pointer ex_platform ex_state)) /\
   (forall b k, b <> 12288 -> allocations ex_state !! b = Some k ->
      ~ In 12288 (block_words (mem ex_state) b k))) /\
  allocations (gc_collect ex_platform ex_state) !! 12288 = None.
Proof.
  assert (Ha : allocations ex_state !! 12288 = Some 24) by (vm_compute; reflexivity).
  assert (Hr : ~ In 12288 (root_words ex_state (plat_registers ex_platform ex_state)
                             (plat_stack_pointer ex_platform ex_state)))
    by (apply not_in_of_existsb; vm_compute; reflexivity).
  assert (Hb : forall b k, b <> 12288 -> allocations ex_state !! b = Some k ->
                 ~ In 12288 (block_words (mem ex_state) b k))
    by (apply unreferenced_inb_sound; vm_compute; reflexivity).
  destruct (gc_collect_frees_unreferenced ex_platform ex_state 12288 24 Ha Hr Hb)
    as [H _].
  split; [split; [exact Ha|split; [exact Hr|exact Hb]]|exact H].
Defined.

Lemma NoDup_fst_filter (f : Z * Z -> bool) (l : list (Z * Z)) :
  List.NoDup (map fst l) -> List.NoDup (map fst (List.filter f l)).
Proof.
  induction l as [|[a n] l IH]; simpl; intros H; [constructor|].
  inversion H as [|? ? Hnin Hnd]; subst.
  destruct (f (a, n)); simpl; [constructor|]; auto.
  intros Hin. apply Hnin. apply in_map_iff in Hin as ([b k] & Hb & Hin).
  simpl in Hb. subst b. apply filter_In in Hin as [Hin _].
  apply in_map_iff. exists (a, k). auto.
Qed.

Lemma fmap_fst_map (l : list (Z * Z)) : l.*1 = map fst l.
Proof. induction l as [|x l IH]; [reflexivity|]. cbn. rewrite IH. reflexivity. Qed.

(** The sweep of one collection frees only tracked blocks that the
    collection drops from the table, and frees each of them exactly once:
    the addresses it passes to [free] are pairwise distinct.  (The trace
    holds the sweep's frees; the [free] of the register buffer is not
    logged.) *)
Theorem gc_collect_frees_each_once (P : platform) (s : gc_state) :
  exists frees,
  trace (gc_collect P s) = trace s ++ EvCollect :: map EvFree frees /\
  List.NoDup frees /\
  forall b, In b frees ->
    is_Some (allocations s !! b) /\ allocations (gc_collect P s) !! b = None.
Proof.
  destruct (gc_mark_spec s (plat_registers P s) (plat_stack_pointer P s))
    as (marked & Hm & _ & _).
  destruct (gc_collect_sweep_spec P s marked Hm) as (H1 & H2 & _ & _).
  exists (map fst (swept_entries marked (allocations s))).
  split; [rewrite H2, map_map; reflexivity|split].
  - unfold swept_entries. apply NoDup_fst_filter.
    apply NoDup_ListNoDup. rewrite <- fmap_fst_map. apply NoDup_fst_map_to_list.
  - intros b Hb. apply in_map_iff in Hb as ([b' k] & Hb & Hin). simpl in Hb. subst b'.
    unfold swept_entries in Hin. apply filter_In in Hin as [Hin Hu].
    unfold unmarked in Hu. simpl in Hu.
    split.
    + exists k. apply elem_of_map_to_list, list_elem_of_In. exact Hin.
    + rewrite H1. destruct (marked !! b); [discriminate|reflexivity].
Qed.

Lemma internal_alloc_inv (P : platform) (cap : Z) (t : gc_state) (size : Z) :
  gc_inv cap t -> gc_inv cap (internal_alloc P t size).2.
Proof.
  intros (Hpos & Hmax & Hcur & Hlt & Hcap & Hnn).
  destruct (internal_alloc_fields P t size) as (F1 & F2 & F3).
  unfold gc_inv. rewrite F1, F2, F3. repeat split; auto.
Qed.

Lemma gc_collect_table_sub (P : platform) (s : gc_state) :
  allocations (gc_collect P s) ⊆ allocations s.
Proof.
  destruct (gc_mark_spec s (plat_registers P s) (plat_stack_pointer P s))
    as (marked & Hm & Hsub & _).
  destruct (gc_collect_sweep_spec P s marked Hm) as (H1 & _).
  rewrite H1. exact Hsub.
Qed.

(** ** Allocation *)

(** Under the bookkeeping invariant, [gc_alloc] returns null only in two
    situations, both in the state after its one collection: the live
    blocks plus the request exceed the cap, or [calloc] itself returned
    null on the retry. *)
Theorem gc_alloc_fails_only_when_full (P : platform) (cap : Z) (s : gc_state) (size : Z) :
  gc_inv cap s -> 0 <= size < word_modulus ->
  (gc_alloc P s size).1 = 0 ->
  let t := (gc_alloc P s size).2 in
  cap < heap_total (allocations t) + size \/
  last (trace t) = Some (EvCalloc size 0).
Proof.
  intros Hinv Hsize. unfold gc_alloc.
  destruct (internal_alloc P s size) as [p1 s1] eqn:E1.
  pose proof (internal_alloc_inv P cap s size Hinv) as I1. rewrite E1 in I1. simpl in I1.
  destruct (p1 =? 0) eqn:Z1; [|simpl; rewrite Z1; simpl; apply Z.eqb_neq in Z1;
                               intros; contradiction].
  pose proof (gc_collect_inv P cap s1 I1) as I2.
  set (t0 := gc_collect P s1) in *.
  destruct (internal_alloc P t0 size) as [p2 s2] eqn:E2.
  destruct (p2 =? 0) eqn:Z2; simpl; [|apply Z.eqb_neq in Z2; intros; contradiction].
  intros _. apply Z.eqb_eq in Z2. subst p2.
  destruct I2 as (Hpos & Hmax & Hcur & Hlt & Hcap & Hnn).
  pose proof (heap_total_nonneg _ Hnn) as H0.
  unfold internal_alloc in E2.
  destruct ((0 <? max_heap_size t0) && (max_heap_size t0 <? wrap64 (current_allocated t0 + size)))
    eqn:Hc.
  - injection E2 as <-. left.
    apply andb_prop in Hc as [_ Hc]. apply Z.ltb_lt in Hc.
    assert (wrap64 (current_allocated t0 + size) <= current_allocated t0 + size)
      by (unfold wrap64, word_modulus; apply Z.mod_le; lia).
    lia.
  - injection E2 as Hp <-. right. simpl. rewrite Hp. apply last_snoc.
Qed.

Lemma gc_alloc_fails_only_when_full_witness :
  (gc_inv 64 ex_state /\ 0 <= 100 < word_modulus /\
   (gc_alloc ex_platform ex_state 100).1 = 0) /\
  (64 < heap_total (allocations (gc_alloc ex_platform ex_state 100).2) + 100 \/
   last (trace (gc_alloc ex_platform ex_state 100).2) = Some (EvCalloc 100 0)).
Proof.
  assert (Hi : gc_inv 64 ex_state).
  { unfold gc_inv. split; [lia|split; [reflexivity|split; [vm_compute; reflexivity|
      split; [vm_compute; reflexivity|split; [simpl; lia|]]]]].
    apply sizes_nonnegb_sound. vm_compute. reflexivity. }
  assert (Hs : 0 <= 100 < word_modulus) by (unfold word_modulus; lia).
  assert (Hf : (gc_alloc ex_platform ex_state 100).1 = 0) by (vm_compute; reflexivity).
  split; [split; [exact Hi|split; [exact Hs|exact Hf]]|].
  exact (gc_alloc_fails_only_when_full ex_platform 64 ex_state 100 Hi Hs Hf).
Defined.

(** A successful [gc_alloc] leaves the new block in the table with its
    size and all its bytes zero. *)
Lemma gc_alloc_success_block (P : platform) (s : gc_state) (size : Z) :
  calloc_sane P -> 0 <= size < word_modulus ->
  (gc_alloc P s size).1 <> 0 ->
  allocations (gc_alloc P s size).2 !! (gc_alloc P s size).1 = Some size /\
  forall x, (gc_alloc P s size).1 <= x < (gc_alloc P s size).1 + size ->
            mem (gc_alloc P s size).2 x = 0.
Proof.
  intros Hsane Hsize. unfold gc_alloc.
  destruct (internal_alloc P s size) as [p1 s1] eqn:E1.
  destruct (p1 =? 0) eqn:Z1.
  - destruct (internal_alloc P (gc_collect P s1) size) as [p2 s2] eqn:E2.
    destruct (p2 =? 0) eqn:Z2; simpl; [intros H; contradiction|].
    intros Hp. pose proof (internal_alloc_success P (gc_collect P s1) size Hsane Hsize)
      as H. rewrite E2 in H. simpl in H. destruct (H Hp) as [_ Hz].
    split; [apply lookup_insert_eq|exact Hz].
  - simpl. rewrite Z1. simpl. intros Hp.
    pose proof (internal_alloc_success P s size Hsane Hsize) as H.
    rewrite E1 in H. simpl in H. destruct (H Hp) as [_ Hz].
    split; [apply lookup_insert_eq|exact Hz].
Qed.

(** A block just returned by [gc_alloc] whose address is held in a root
    region survives the next collection with its table entry and its
    zero-filled contents ([testGCNotCollectingLocallyReferencedBlock]). *)
Theorem gc_alloc_then_collect_keeps_block (P : platform) (s : gc_state) (size : Z) :
  calloc_sane P -> 0 <= size < word_modulus ->
  (gc_alloc P s size).1 <> 0 ->
  let p := (gc_alloc P s size).1 in
  let t := (gc_alloc P s size).2 in
  blocks_disjoint (allocations t) ->
  In p (root_words t (plat_registers P t) (plat_stack_pointer P t)) ->
  allocations (gc_collect P t) !! p = Some size /\
  forall x, p <= x < p + size -> mem (gc_collect P t) x = 0.
Proof.
  intros Hsane Hsize Hp p t Hdisj Hroot.
  destruct (gc_alloc_success_block P s size Hsane Hsize Hp) as [Ha Hz].
  fold p t in Ha, Hz.
  assert (Hr : reachable (allocations t) (mem t)
                 (root_words t (plat_registers P t) (plat_stack_pointer P t)) p)
    by (eapply reach_root; [exact Hroot|exact Ha]).
  destruct (gc_collect_keeps_reachable_block P t p size Hdisj Ha Hr) as [H1 H2].
  split; [exact H1|]. intros x Hx. rewrite H2 by exact Hx. apply Hz. exact Hx.
Qed.

Lemma gc_alloc_then_collect_keeps_block_witness :
  (calloc_sane ex_platform_regs /\ 0 <= 16 < word_modulus /\
   (gc_alloc ex_platform_regs ex_state 16).1 <> 0 /\
   blocks_disjoint (allocations (gc_alloc ex_platform_regs ex_state 16).2) /\
   In (gc_alloc ex_platform_regs ex_state 16).1
     (root_words (gc_alloc ex_platform_regs ex_state 16).2
        (plat_registers ex_platform_regs (gc_alloc ex_platform_regs ex_state 16).2)
        (plat_stack_pointer ex_platform_regs (gc_alloc ex_platform_regs ex_state 16).2))) /\
  allocations (gc_collect ex_platform_regs (gc_alloc ex_platform_regs ex_state 16).2)
    !! 20480 = Some 16.
Proof.
  assert (Hsane : calloc_sane ex_platform_regs) by exact ex_calloc_sane.
  assert (Hs : 0 <= 16 < word_modulus) by (unfold word_modulus; lia).
  assert (Hv : (gc_alloc ex_platform_regs ex_state 16).1 = 20480)
    by (vm_compute; reflexivity).
  assert (Hp : (gc_alloc ex_platform_regs ex_state 16).1 <> 0) by (rewrite Hv; lia).
  assert (Hd : blocks_disjoint (allocations (gc_alloc ex_platform_regs ex_state 16).2))
    by (apply blocks_disjointb_sound; vm_compute; reflexivity).
  assert (Hr : In (gc_alloc ex_platform_regs ex_state 16).1
     (root_words (gc_alloc ex_platform_regs ex_state 16).2
        (plat_registers ex_platform_regs (gc_alloc ex_platform_regs ex_state 16).2)
        (plat_stack_pointer ex_platform_regs (gc_alloc ex_platform_regs ex_state 16).2)))
    by (apply in_of_existsb; vm_compute; reflexivity).
  destruct (gc_alloc_then_collect_keeps_block ex_platform_regs ex_state 16
              Hsane Hs Hp Hd Hr) as [H _].
  rewrite Hv in H.
  split; [split; [exact Hsane|split; [exact Hs|split; [exact Hp|split; [exact Hd|exact Hr]]]]|
          exact H].
Defined.

(** The cap check adds [current_allocated + size] in [size_t]: when that
    sum wraps around to a value within the cap, [internal_alloc] calls
    [calloc] although the request exceeds the cap. *)
Theorem internal_alloc_cap_check_wraps (P : platform) (s : gc_state) (size : Z) :
  0 < max_heap_size s < word_modulus -> 0 <= current_allocated s ->
  word_modulus <= current_allocated s + size ->
  wrap64 (current_allocated s + size) <= max_heap_size s ->
  max_heap_size s < current_allocated s + size /\
  (internal_alloc P s size).1 = plat_calloc P s size /\
  trace (internal_alloc P s size).2 = trace s ++ [EvCalloc size (plat_calloc P s size)].
Proof.
  intros Hmax Hcur Hwrap Hle. split; [lia|].
  unfold internal_alloc.
  replace (max_heap_size s <? wrap64 (current_allocated s + size)) with false
    by (symmetry; apply Z.ltb_ge; exact Hle).
  rewrite andb_false_r. simpl. split; reflexivity.
Qed.

Lemma internal_alloc_cap_check_wraps_witness :
  (0 < max_heap_size ex_state < word_modulus /\ 0 <= current_allocated ex_state /\
   word_modulus <= current_allocated ex_state + (2 ^ 64 - 40) /\
   wrap64 (current_allocated ex_state + (2 ^ 64 - 40)) <= max_heap_size ex_state) /\
  trace (internal_alloc ex_platform ex_state (2 ^ 64 - 40)).2 =
    [EvCalloc (2 ^ 64 - 40) 0].
Proof.
  assert (H1 : 0 < max_heap_size ex_state < word_modulus)
    by (simpl; unfold word_modulus; lia).
  assert (H2 : 0 <= current_allocated ex_state) by (simpl; lia).
  assert (H3 : word_modulus <= current_allocated ex_state + (2 ^ 64 - 40))
    by (simpl; unfold word_modulus; lia).
  assert (H4 : wrap64 (current_allocated ex_state + (2 ^ 64 - 40)) <= max_heap_size ex_state)
    by (vm_compute; discriminate).
  destruct (internal_alloc_cap_check_wraps ex_platform ex_state (2 ^ 64 - 40)
              H1 H2 H3 H4) as (_ & _ & H).
  split; [split; [exact H1|split; [exact H2|split; [exact H3|exact H4]]]|].
  rewrite H. vm_compute. reflexivity.
Defined.

Lemma gc_alloc_table_sub_insert (P : platform) (s : gc_state) (size : Z) :
  let '(p, t) := gc_alloc P s size in
  (p = 0 -> allocations t ⊆ allocations s) /\
  (p <> 0 -> allocations t ⊆ <[p:=size]> (allocations s)).
Proof.
  unfold gc_alloc.
  destruct (internal_alloc P s size) as [p1 s1] eqn:E1.
  pose proof (internal_alloc_fields P s size) as (F1 & _ & _). rewrite E1 in F1.
  simpl in F1.
  destruct (p1 =? 0) eqn:Z1.
  - pose proof (internal_alloc_fields P (gc_collect P s1) size) as (G1 & _ & _).
    pose proof (gc_collect_table_sub P s1) as Hsub. rewrite F1 in Hsub.
    destruct (internal_alloc P (gc_collect P s1) size) as [p2 s2] eqn:E2.
    simpl in G1. rewrite <- G1 in Hsub.
    destruct (p2 =? 0) eqn:Z2; simpl; split; intros Hp.
    + exact Hsub.
    + apply Z.eqb_eq in Z2. contradiction.
    + apply Z.eqb_neq in Z2. contradiction.
    + apply insert_mono. exact Hsub.
  - simpl. rewrite Z1. simpl. split; intros Hp.
    + apply Z.eqb_neq in Z1. contradiction.
    + rewrite F1. reflexivity.
Qed.

(** [gc_alloc] never adds an entry other than the block it returns and
    never changes the size of an entry: the table afterwards is a
    sub-table of the old one, plus the new entry on success. *)
Theorem gc_alloc_table_bounded (P : platform) (s : gc_state) (size : Z) :
  let '(p, t) := gc_alloc P s size in
  (p = 0 -> allocations t ⊆ allocations s) /\
  (p <> 0 -> allocations t ⊆ <[p:=size]> (allocations s)).
Proof. exact (gc_alloc_table_sub_insert P s size). Qed.

(** ** The test driver *)

(** [UNSCRAMBLE] undoes [SCRAMBLE], and a scrambled pointer to a block of
    at least 2 bytes is never a key of a table of disjoint blocks, so the
    scanner does not follow it: the tests' hidden pointers keep nothing
    alive. *)
Theorem scramble_hides_block (alloc : heapmap) (a n : Z) :
  blocks_disjoint alloc -> (forall k m, alloc !! k = Some m -> 0 <= m) ->
  alloc !! a = Some n -> 0 <= a -> 2 <= n -> a + n <= word_modulus ->
  UNSCRAMBLE (SCRAMBLE a) = a /\ alloc !! SCRAMBLE a = None.
Proof.
  intros Hdisj Hnn Ha H0 Hn Hend.
  assert (Hs : SCRAMBLE a = a + 1) by (apply wrap64_small; lia).
  split.
  - rewrite Hs. unfold UNSCRAMBLE. rewrite Z.add_simpl_r. apply wrap64_small. lia.
  - rewrite Hs. destruct (alloc !! (a + 1)) as [k|] eqn:Hk; [|reflexivity].
    exfalso. pose proof (Hnn _ _ Hk).
    destruct (Hdisj a n (a + 1) k Ha Hk ltac:(lia)); lia.
Qed.

Lemma scramble_hides_block_witness :
  (blocks_disjoint ex_allocations /\
   (forall k m, ex_allocations !! k = Some m -> 0 <= m) /\
   ex_allocations !! 4096 = Some 16 /\ 0 <= 4096 /\ 2 <= 16 /\
   4096 + 16 <= word_modulus) /\
  ex_allocations !! SCRAMBLE 4096 = None.
Proof.
  assert (Hd : blocks_disjoint ex_allocations)
    by (apply blocks_disjointb_sound; vm_compute; reflexivity).
  assert (Hn : forall k m, ex_allocations !! k = Some m -> 0 <= m)
    by (apply sizes_nonnegb_sound; vm_compute; reflexivity).
  assert (Ha : ex_allocations !! 4096 = Some 16) by (vm_compute; reflexivity).
  assert (H0 : 0 <= 4096) by lia. assert (H2 : 2 <= 16) by lia.
  assert (He : 4096 + 16 <= word_modulus) by (unfold word_modulus; lia).
  destruct (scramble_hides_block ex_allocations 4096 16 Hd Hn Ha H0 H2 He) as [_ H].
  split; [repeat split; assumption|exact H].
Defined.

(** The null address never becomes a key of the table: [gc_alloc] records
    only non-null results and a collection only drops entries.  So a
    zeroed word (the unused slot of the register buffer, a cleared stack
    area) never keeps a block alive. *)
Theorem run_ops_never_tracks_null (P : platform) (ops : list gc_op) (s : gc_state) :
  allocations s !! 0 = None -> allocations (run_ops P ops s) !! 0 = None.
Proof.
  revert s. induction ops as [|[size|] ops IH]; intros s H0; simpl; [exact H0| |].
  - apply IH. pose proof (gc_alloc_table_sub_insert P s size) as Hb.
    destruct (gc_alloc P s size) as [p t]. simpl.
    destruct (Z.eq_dec p 0) as [Hp|Hp].
    + eapply lookup_weaken_None; [exact H0|exact (proj1 Hb Hp)].
    + eapply lookup_weaken_None; [|exact (proj2 Hb Hp)].
      rewrite lookup_insert_ne by congruence. exact H0.
  - apply IH. eapply lookup_weaken_None; [exact H0|apply gc_collect_table_sub].
Qed.

Lemma load_bytes_zero (m : Mem) (x : Z) (n : nat) :
  (forall i, 0 <= i < Z.of_nat n -> m (x + i) = 0) -> load_bytes m x n = 0.
Proof.
  revert x. induction n as [|n IH]; intros x H; [reflexivity|]. simpl.
  rewrite (IH (x + 1)).
  - specialize (H 0 ltac:(lia)). rewrite Z.add_0_r in H. rewrite H. reflexivity.
  - intros i Hi. replace (x + 1 + i) with (x + (1 + i)) by lia. apply H. lia.
Qed.

Lemma scan_words_no_keys (rec : Z -> Z -> heapmap -> option heapmap)
    (alloc : heapmap) (ws : list Z) (mk : heapmap) :
  (forall w, In w ws -> alloc !! w = None) -> scan_words rec alloc ws mk = Some mk.
Proof.
  induction ws as [|w ws IH]; intros H; [reflexivity|]. simpl.
  rewrite (H w (or_introl eq_refl)). apply IH. intros; apply H; right; assumption.
Qed.

(** [clearStack()] zeroes 1024 bytes of stack: scanning that area as a
    root region marks nothing, since every word read there is 0 and 0 is
    not a key of the table. *)
Theorem clearStack_area_marks_nothing (fuel : nat) (alloc : heapmap) (m m' : Mem)
    (a : Z) (mk : heapmap) :
  alloc !! 0 = None -> 0 <= a -> a + 1024 < word_modulus ->
  scan_root fuel alloc m' (block_words (clearStack m a) a 1024) mk = Some mk.
Proof.
  intros H0 Ha He. unfold scan_root. apply scan_words_no_keys.
  intros w Hw. unfold block_words in Hw. apply in_map_iff in Hw as (k & <- & Hk).
  apply in_seq in Hk.
  assert (Hc : scan_word_count a 1024 = 128%nat).
  { unfold scan_word_count. rewrite wrap64_small by lia.
    replace (a <? a + 1024) with true by (symmetry; apply Z.ltb_lt; lia).
    replace (a + 1024 - a + 7) with 1031 by lia. reflexivity. }
  rewrite Hc in Hk.
  unfold load_word. rewrite load_bytes_zero; [exact H0|].
  intros i Hi. unfold clearStack, memset.
  replace ((a <=? a + 8 * Z.of_nat k + i) && (a + 8 * Z.of_nat k + i <? a + 1024))
    with true; [reflexivity|].
  symmetry. apply andb_true_intro. split; [apply Z.leb_le|apply Z.ltb_lt]; simpl in Hi; lia.
Qed.

Lemma run_ops_never_tracks_null_witness :
  allocations ex_state !! 0 = None /\
  allocations (run_ops ex_platform [OpAlloc 16; OpCollect; OpAlloc 2000] ex_state) !! 0
    = None.
Proof.
  assert (H : allocations ex_state !! 0 = None) by (vm_compute; reflexivity).
  split; [exact H|].
  exact (run_ops_never_tracks_null ex_platform [OpAlloc 16; OpCollect; OpAlloc 2000]
           ex_state H).
Defined.

Lemma clearStack_area_marks_nothing_witness :
  (ex_allocations !! 0 = None /\ 0 <= 3000 /\ 3000 + 1024 < word_modulus) /\
  scan_root 1 ex_allocations ex_mem (block_words (clearStack ex_mem 3000) 3000 1024) ∅
    = Some ∅.
Proof.
  assert (H0 : ex_allocations !! 0 = None) by (vm_compute; reflexivity).
  assert (H1 : 0 <= 3000) by lia.
  assert (H2 : 3000 + 1024 < word_modulus) by (unfold word_modulus; lia).
  split; [split; [exact H0|split; [exact H1|exact H2]]|].
  exact (clearStack_area_marks_nothing 1 ex_allocations ex_mem ex_mem 3000 ∅ H0 H1 H2).
Defined.
